(** * The episodes gateway of pods-backend: RSS feed to playable episode list

    A shallow embedding of the [GET /episodes] route of [Server_backup.cjs]
    (the cache middleware [cacheMW], the input validation, the race of the
    feed parser against the 9 second timer, the item mapping and the
    playability filter), and of the item mapping of the variant route of
    the second server file.

    Conventions.
    - A JavaScript string is a [string], read as the UTF-8 encoding of the
      JavaScript string (well-formed strings only).
    - A property that may hold [undefined], [null] or a string is a [jsval];
      a sub-object reached through [?.] is an [option] of a record.
    - Time is in milliseconds, as [Date.now()] counts it. *)

From Stdlib Require Import ZArith NArith Ascii String List Bool Lia.
From stdpp Require Import base option gmap strings.
Import ListNotations.

Local Open Scope string_scope.
Local Open Scope Z_scope.

(** ** JavaScript values and operators used by the route *)

Module JS.

Inductive jsval : Type :=
| JUndefined
| JNull
| JStr (s : string).

(** [ToBoolean]: [undefined], [null] and the empty string are falsy. *)
Definition truthy (v : jsval) : bool :=
  match v with
  | JStr s => negb (String.eqb s "")
  | _ => false
  end.

(** [a || b] *)
Definition or (a b : jsval) : jsval := if truthy a then a else b.

(** [a ?? b] *)
Definition nullish (a b : jsval) : jsval :=
  match a with
  | JUndefined | JNull => b
  | JStr _ => a
  end.

(** [a || "literal"], whose value is always a string. *)
Definition or_str (a : jsval) (d : string) : string :=
  match or a (JStr d) with
  | JStr s => s
  | _ => d
  end.

(** [`${v}`] *)
Definition template (v : jsval) : string :=
  match v with
  | JUndefined => "undefined"
  | JNull => "null"
  | JStr s => s
  end.

(** [o?.f] for an optional sub-object [o]. *)
Definition chain {A : Type} (o : option A) (f : A -> jsval) : jsval :=
  match o with
  | Some a => f a
  | None => JUndefined
  end.

Definition code (c : ascii) : N := N_of_ascii c.

(** *** [String.prototype.trim]

    WhiteSpace and LineTerminator code points, in their UTF-8 form:
    one byte (TAB, LF, VT, FF, CR, SP), two bytes (U+00A0) or three
    bytes (U+1680, U+2000..U+200A, U+2028, U+2029, U+202F, U+205F,
    U+3000, U+FEFF). *)

Definition ws1 (a : ascii) : bool :=
  let n := code a in
  ((9 <=? n) && (n <=? 13) || (n =? 32))%N.

Definition ws2 (a b : ascii) : bool :=
  ((code a =? 194) && (code b =? 160))%N.

Definition ws3 (a b c : ascii) : bool :=
  let x := code a in
  let y := code b in
  let z := code c in
  ((x =? 225) && (y =? 154) && (z =? 128)
   || (x =? 226) && (y =? 128)
      && ((128 <=? z) && (z <=? 138) || (z =? 168) || (z =? 169) || (z =? 175))
   || (x =? 226) && (y =? 129) && (z =? 159)
   || (x =? 227) && (y =? 128) && (z =? 128)
   || (x =? 239) && (y =? 187) && (z =? 191))%N.

Fixpoint trimStart (s : string) : string :=
  match s with
  | EmptyString => s
  | String a r1 =>
      if ws1 a then trimStart r1
      else
        match r1 with
        | EmptyString => s
        | String b r2 =>
            if ws2 a b then trimStart r2
            else
              match r2 with
              | EmptyString => s
              | String c r3 => if ws3 a b c then trimStart r3 else s
              end
        end
  end.

(** The same scan from the other end, on the reversed string (the bytes
    of a code point then come last byte first). *)
Fixpoint trimStart_rev (s : string) : string :=
  match s with
  | EmptyString => s
  | String a r1 =>
      if ws1 a then trimStart_rev r1
      else
        match r1 with
        | EmptyString => s
        | String b r2 =>
            if ws2 b a then trimStart_rev r2
            else
              match r2 with
              | EmptyString => s
              | String c r3 => if ws3 c b a then trimStart_rev r3 else s
              end
        end
  end.

Definition trimEnd (s : string) : string :=
  String.rev (trimStart_rev (String.rev s)).

Definition trim (s : string) : string := trimEnd (trimStart s).

(** *** [decodeURIComponent]

    [None] stands for the [URIError] the builtin throws. *)

Inductive token : Type :=
| Lit (c : ascii)
| Esc (b : N)
| Bad.

Definition hex (c : ascii) : option N :=
  let n := code c in
  if ((48 <=? n) && (n <=? 57))%N then Some (n - 48)%N
  else if ((65 <=? n) && (n <=? 70))%N then Some (n - 55)%N
  else if ((97 <=? n) && (n <=? 102))%N then Some (n - 87)%N
  else None.

Fixpoint tokens (s : string) : list token :=
  match s with
  | EmptyString => []
  | String c r =>
      if (code c =? 37)%N then
        match r with
        | String h (String l r') =>
            match hex h, hex l with
            | Some x, Some y => Esc (16 * x + y)%N :: tokens r'
            | _, _ => [Bad]
            end
        | _ => [Bad]
        end
      else Lit c :: tokens r
  end.

Definition between (lo b hi : N) : bool := ((lo <=? b) && (b <=? hi))%N.

(** The octets of the escapes must form valid UTF-8: [need] counts the
    continuation octets still expected and [lo]..[hi] is the range the
    next one must fall in (no overlong form, no surrogate, nothing above
    U+10FFFF). *)
Fixpoint decode_tokens (need : nat) (lo hi : N) (ts : list token)
  : option string :=
  match ts with
  | [] => match need with O => Some "" | S _ => None end
  | Bad :: _ => None
  | Lit c :: r =>
      match need with
      | O => String c <$> decode_tokens O 128 191 r
      | S _ => None
      end
  | Esc b :: r =>
      match need with
      | O =>
          if (b <? 128)%N then String (ascii_of_N b) <$> decode_tokens O 128 191 r
          else if between 194 b 223 then String (ascii_of_N b) <$> decode_tokens 1 128 191 r
          else if (b =? 224)%N then String (ascii_of_N b) <$> decode_tokens 2 160 191 r
          else if (b =? 237)%N then String (ascii_of_N b) <$> decode_tokens 2 128 159 r
          else if between 225 b 239 then String (ascii_of_N b) <$> decode_tokens 2 128 191 r
          else if (b =? 240)%N then String (ascii_of_N b) <$> decode_tokens 3 144 191 r
          else if between 241 b 243 then String (ascii_of_N b) <$> decode_tokens 3 128 191 r
          else if (b =? 244)%N then String (ascii_of_N b) <$> decode_tokens 3 128 143 r
          else None
      | S n =>
          if between lo b hi
          then String (ascii_of_N b) <$> decode_tokens n 128 191 r
          else None
      end
  end.

Definition decodeURIComponent (s : string) : option string :=
  decode_tokens O 128 191 (tokens s).

(** *** The test [/^https?:\/\//i.test(s)] *)

Definition lower (c : ascii) : ascii :=
  let n := code c in
  if ((65 <=? n) && (n <=? 90))%N then ascii_of_N (n + 32) else c.

Fixpoint starts_with_ci (p s : string) : bool :=
  match p, s with
  | EmptyString, _ => true
  | String _ _, EmptyString => false
  | String a p', String b s' =>
      Ascii.eqb a (lower b) && starts_with_ci p' s'
  end.

Definition is_http_url (s : string) : bool :=
  starts_with_ci "http://" s || starts_with_ci "https://" s.

End JS.

Import JS.

(** ** The parsed feed, as the route reads it

    Only the properties the two routes read are kept. [rss-parser] is
    configured with the custom item fields [itunesImage] (from
    [itunes:image]), [mediaContent] (from [media:content], kept as an
    array) and [itunesDuration] (from [itunes:duration]). *)

Record Enclosure : Type := {
  enc_url : jsval;
  enc_type : jsval
}.

(** The attribute object [$] of a [media:content] element. *)
Record McAttrs : Type := {
  mc_url : jsval;
  mc_type : jsval
}.

Record McEntry : Type := {
  mc_attrs : option McAttrs
}.

Record Href : Type := {
  href : jsval
}.

Record ItemItunes : Type := {
  ii_duration : jsval;
  ii_image : jsval
}.

Record Item : Type := {
  item_guid : jsval;
  item_title : jsval;
  item_contentSnippet : jsval;
  item_summary : jsval;
  item_content : jsval;
  item_description : jsval;
  item_pubDate : jsval;
  item_link : jsval;
  item_enclosure : option Enclosure;
  (** [None]: [item.mediaContent] is not an array. *)
  item_mediaContent : option (list McEntry);
  item_itunesImage : option Href;
  (** the property named ["itunes:image"] *)
  item_itunes_image : option Href;
  item_itunes : option ItemItunes;
  item_itunesDuration : jsval
}.

Record FeedItunes : Type := {
  fi_author : jsval;
  fi_image : jsval
}.

Record FeedImage : Type := {
  img_url : jsval
}.

Record Feed : Type := {
  feed_title : jsval;
  feed_itunes : option FeedItunes;
  feed_image : option FeedImage;
  feed_items : option (list Item)
}.

(** ** The canonical episode record *)

Record Episode : Type := {
  ep_guid : jsval;
  ep_title : string;
  ep_description : string;
  ep_pubDate : jsval;
  ep_link : jsval;
  ep_mediaUrl : jsval;
  ep_mediaType : jsval;
  ep_image : jsval;
  ep_duration : jsval
}.

(** [Array.isArray(item.mediaContent) ? item.mediaContent : []] *)
Definition mc_of (item : Item) : list McEntry :=
  match item_mediaContent item with
  | Some l => l
  | None => []
  end.

(** [mc[0]?.$?.f] *)
Definition mc0 (item : Item) (f : McAttrs -> jsval) : jsval :=
  match head (mc_of item) with
  | Some e => chain (mc_attrs e) f
  | None => JUndefined
  end.

Definition mediaUrl_of (item : Item) : jsval :=
  JS.or (JS.or (chain (item_enclosure item) enc_url)
               (nullish (mc0 item mc_url) JNull))
        JNull.

Definition mediaType_of (item : Item) : jsval :=
  JS.or (JS.or (chain (item_enclosure item) enc_type)
               (nullish (mc0 item mc_type) JNull))
        JNull.

Definition image_of (feed : Feed) (item : Item) : jsval :=
  JS.or (JS.or (JS.or (chain (item_itunesImage item) href)
                      (chain (item_itunes_image item) href))
               (chain (feed_image feed) img_url))
        JNull.

Definition description_of (item : Item) : string :=
  or_str (JS.or (JS.or (item_contentSnippet item) (item_summary item))
                (item_description item))
         "".

(** The callback of [feed.items.map] in [Server_backup.cjs]. *)
Definition episode_of_item (feed : Feed) (item : Item) : Episode := {|
  ep_guid := JS.or (item_guid item) JNull;
  ep_title := trim (or_str (item_title item) "Untitled Episode");
  ep_description := description_of item;
  ep_pubDate := JS.or (item_pubDate item) JNull;
  ep_link := JS.or (item_link item) JNull;
  ep_mediaUrl := mediaUrl_of item;
  ep_mediaType := mediaType_of item;
  ep_image := image_of feed item;
  ep_duration :=
    JS.or (JS.or (chain (item_itunes item) ii_duration)
                 (item_itunesDuration item))
          JNull
|}.

(** [.filter(ep => !!ep.mediaUrl)] *)
Definition playable (ep : Episode) : bool := truthy (ep_mediaUrl ep).

Definition episodes_of (feed : Feed) (items : list Item) : list Episode :=
  List.filter playable (List.map (episode_of_item feed) items).

(** [feed.itunes?.author || feed.title || "Unknown"] *)
Definition author_of (feed : Feed) : string :=
  or_str (JS.or (chain (feed_itunes feed) fi_author) (feed_title feed))
         "Unknown".

(** *** The variant route (second server file) *)

Definition variant_description_of (item : Item) : string :=
  or_str (JS.or (item_contentSnippet item) (item_content item)) "".

Definition variant_image_of (feed : Feed) (item : Item) : jsval :=
  JS.or (JS.or (JS.or (chain (item_itunes item) ii_image)
                      (chain (feed_itunes feed) fi_image))
               (chain (feed_image feed) img_url))
        JNull.

Definition variant_episode_of_item (feed : Feed) (item : Item) : Episode := {|
  ep_guid := JS.or (item_guid item) JNull;
  ep_title := or_str (item_title item) "Untitled Episode";
  ep_description := variant_description_of item;
  ep_pubDate := JS.or (item_pubDate item) JNull;
  ep_link := JS.or (item_link item) JNull;
  ep_mediaUrl := JS.or (chain (item_enclosure item) enc_url) JNull;
  ep_mediaType := JS.or (chain (item_enclosure item) enc_type) JNull;
  ep_image := variant_image_of feed item;
  ep_duration := JS.or (chain (item_itunes item) ii_duration) JNull
|}.

(** ** Responses *)

Inductive Body : Type :=
| ErrorBody (error : string)
| ErrorDetailsBody (error details : string)
| EpisodesBody (title : jsval) (author : string) (episodes : list Episode).

(** What the handler passes to [res.status], [res.set] and [res.json]. *)
Record Reply : Type := {
  reply_status : Z;
  reply_cache_control : option string;
  reply_body : Body
}.

Definition reply_error (status : Z) (b : Body) : Reply :=
  {| reply_status := status; reply_cache_control := None; reply_body := b |}.

(** ** The feed parser and the race against the timer *)

Inductive Settlement : Type :=
| Resolve (feed : option Feed)
| Reject (message : string).

(** What [rss.parseURL(url)] does when called: it settles [after]
    milliseconds, or never. *)
Inductive ParseOutcome : Type :=
| Settles (after : N) (s : Settlement)
| Pending.

Definition TIMEOUT_MS : N := 9000.

(** [Promise.race([rss.parseURL(feedUrl), timeoutPromise])]: the time it
    takes and how it settles. A parser that settles at the very instant
    the timer fires loses to the timer. *)
Definition race (p : ParseOutcome) : N * Settlement :=
  match p with
  | Settles after s =>
      if (after <? TIMEOUT_MS)%N then (after, s)
      else (TIMEOUT_MS, Reject "Feed fetch timed out")
  | Pending => (TIMEOUT_MS, Reject "Feed fetch timed out")
  end.

(** ** The handler of the route *)

Record Handled : Type := {
  (** [None]: the handler threw outside its [try] block, nothing is sent *)
  handled_reply : option Reply;
  handled_elapsed : N;
  (** the URLs [rss.parseURL] was called with *)
  handled_fetched : list string
}.

Definition answered (r : Reply) : Handled :=
  {| handled_reply := Some r; handled_elapsed := 0; handled_fetched := [] |}.

(** The body of the [try] block once the race has resolved with [feed]. *)
Definition render_feed (feed : option Feed) : Reply :=
  match feed with
  | None => reply_error 404 (ErrorBody "No episodes found")
  | Some f =>
      match feed_items f with
      | None | Some [] => reply_error 404 (ErrorBody "No episodes found")
      | Some items =>
          match episodes_of f items with
          | [] => reply_error 404 (ErrorBody "No playable media in feed")
          | episodes =>
              {| reply_status := 200;
                 reply_cache_control := Some "public, max-age=60";
                 reply_body := EpisodesBody (feed_title f) (author_of f) episodes |}
          end
      end
  end.

(** The [catch] branch. *)
Definition render_failure (message : string) : Reply :=
  reply_error 404 (ErrorDetailsBody "Feed not found or unavailable" message).

Definition render (s : Settlement) : Reply :=
  match s with
  | Resolve feed => render_feed feed
  | Reject message => render_failure message
  end.

Definition episodes_handler (rawFeedUrl : jsval)
    (parseURL : string -> ParseOutcome) : Handled :=
  if negb (truthy rawFeedUrl) then
    answered (reply_error 400 (ErrorBody "Missing feedUrl"))
  else
    match decodeURIComponent (template rawFeedUrl) with
    | None =>
        {| handled_reply := None; handled_elapsed := 0; handled_fetched := [] |}
    | Some decoded =>
        let feedUrl := trim decoded in
        if negb (is_http_url feedUrl) then
          answered (reply_error 400 (ErrorBody "Invalid feed URL"))
        else
          let '(elapsed, settlement) := race (parseURL feedUrl) in
          {| handled_reply := Some (render settlement);
             handled_elapsed := elapsed;
             handled_fetched := [feedUrl] |}
    end.

(** ** The response cache

    [new NodeCache({ stdTTL: 120, checkperiod: 200 })]: a stored value
    carries the time [t] up to which it is served ([0]: for ever); [get]
    drops an entry whose time has passed. The periodic sweep only removes
    entries that [get] no longer serves. *)

Record Entry : Type := {
  entry_v : Body;
  entry_t : Z
}.

Definition stdTTL : Z := 120.

Definition expired (e : Entry) (now : Z) : bool :=
  negb (entry_t e =? 0) && (entry_t e <? now).

Definition cache_get (c : gmap string Entry) (now : Z) (key : string)
  : option Body * gmap string Entry :=
  match c !! key with
  | Some e => if expired e now then (None, delete key c) else (Some (entry_v e), c)
  | None => (None, c)
  end.

Definition cache_set (c : gmap string Entry) (now : Z) (key : string)
    (value : Body) : gmap string Entry :=
  <[key := {| entry_v := value; entry_t := now + stdTTL * 1000 |}]> c.

(** ** The route: [cacheMW] in front of the handler *)

Record Request : Type := {
  (** [req.query.feedUrl]: absent, or the string the query parser of the
      framework has already percent-decoded once *)
  query_feedUrl : jsval
}.

(** [(req) => `episodes:${req.query.feedUrl}`] *)
Definition keyBuilder (req : Request) : string :=
  "episodes:" +:+ template (query_feedUrl req).

Record Response : Type := {
  status : Z;
  x_cache : option string;
  cache_control : option string;
  body : Body
}.

Record Outcome : Type := {
  (** [None]: no response is sent *)
  response : option Response;
  cache_after : gmap string Entry;
  fetched : list string
}.

(** One request served at time [now] on the cache [c]. The replaced
    [res.json] stores the body at the time the handler answers. *)
Definition episodes_route (c : gmap string Entry) (now : Z) (req : Request)
    (parseURL : string -> ParseOutcome) : Outcome :=
  let key := keyBuilder req in
  match cache_get c now key with
  | (Some hit, c1) =>
      {| response := Some {| status := 200; x_cache := Some "HIT";
                             cache_control := None; body := hit |};
         cache_after := c1;
         fetched := [] |}
  | (None, c1) =>
      let h := episodes_handler (query_feedUrl req) parseURL in
      match handled_reply h with
      | Some r =>
          {| response := Some {| status := reply_status r;
                                 x_cache := Some "MISS";
                                 cache_control := reply_cache_control r;
                                 body := reply_body r |};
             cache_after := cache_set c1 (now + Z.of_N (handled_elapsed h)) key (reply_body r);
             fetched := handled_fetched h |}
      | None =>
          {| response := None; cache_after := c1; fetched := handled_fetched h |}
      end
  end.

(** Two requests one after the other. *)
Definition two_requests (c : gmap string Entry)
    (now1 : Z) (req1 : Request) (parse1 : string -> ParseOutcome)
    (now2 : Z) (req2 : Request) (parse2 : string -> ParseOutcome)
  : Outcome * Outcome :=
  let o1 := episodes_route c now1 req1 parse1 in
  (o1, episodes_route (cache_after o1) now2 req2 parse2).

(** ** The specification's wording, for comparison with the code *)

Module Spec.

Definition non_null (v : jsval) : bool :=
  match v with
  | JStr _ => true
  | JUndefined | JNull => false
  end.

(** "first non-null wins", else null *)
Fixpoint first_non_null (l : list jsval) : jsval :=
  match l with
  | [] => JNull
  | v :: r => if non_null v then v else first_non_null r
  end.

(** "content-snippet, else summary, else full content, else empty
    string" *)
Definition description (snippet summary full : jsval) : string :=
  match first_non_null [snippet; summary; full] with
  | JStr s => s
  | _ => ""
  end.

(** "item-level artwork extension, else feed-level artwork extension,
    else feed-level generic image, else null" *)
Definition image (item_artwork feed_artwork feed_image : jsval) : jsval :=
  first_non_null [item_artwork; feed_artwork; feed_image].

(** "equals the enclosure URL ...; when the enclosure field is absent,
    the first media-content extension's URL ... is used, else null",
    for either attribute [f]/[g] *)
Definition media (item : Item) (f : Enclosure -> jsval)
    (g : McAttrs -> jsval) : jsval :=
  match item_enclosure item with
  | Some e => nullish (f e) JNull
  | None => JS.or (nullish (mc0 item g) JNull) JNull
  end.


(** "the feed-level itunes author when present, else the feed title
    when present, else the literal string Unknown"; a property is
    present when it holds a non-empty string *)
Definition author (itunes_author title : jsval) : string :=
  match itunes_author with
  | JStr (String c a) => String c a
  | _ =>
      match title with
      | JStr (String c t) => String c t
      | _ => "Unknown"
      end
  end.

(** The two media references of an item, read on the item as the parser
    delivers it: the URL of the primary enclosure and the URL of the
    first media-content extension. *)
Definition enclosure_url (item : Item) : jsval :=
  match item_enclosure item with
  | Some e => enc_url e
  | None => JUndefined
  end.

Definition first_media_content_url (item : Item) : jsval :=
  match item_mediaContent item with
  | Some (e :: _) =>
      match mc_attrs e with
      | Some a => mc_url a
      | None => JUndefined
      end
  | Some [] | None => JUndefined
  end.

(** "mediaUrl: primary enclosure URL, else first media-content extension
    URL, else null", under "first non-null wins" *)
Definition mediaUrl (item : Item) : jsval :=
  first_non_null [enclosure_url item; first_media_content_url item].

End Spec.

(** The first value that is a non-empty string, else null: what a chain
    [a || b || ... || null] computes. *)
Fixpoint first_truthy (l : list jsval) : jsval :=
  match l with
  | [] => JNull
  | v :: r => if truthy v then v else first_truthy r
  end.

(** A non-empty string. *)
Definition non_empty (v : jsval) : bool :=
  match v with
  | JStr (String _ _) => true
  | JStr EmptyString | JUndefined | JNull => false
  end.

(** The item has a media URL: its enclosure URL, or else the URL of its
    first media-content entry, is a non-empty string. *)
Definition has_media_url (item : Item) : bool :=
  non_empty (Spec.enclosure_url item)
  || non_empty (Spec.first_media_content_url item).

(** That media URL: the enclosure URL when it is a non-empty string, else
    the URL of the first media-content entry when it is one, else null. *)
Definition media_url_of_item (item : Item) : jsval :=
  if non_empty (Spec.enclosure_url item) then Spec.enclosure_url item
  else if non_empty (Spec.first_media_content_url item)
       then Spec.first_media_content_url item
       else JNull.

(** ** Sample feeds and items *)

Definition item_of (snippet summary content description : jsval)
    (enclosure : option Enclosure) (mediaContent : option (list McEntry))
  : Item := {|
  item_guid := JUndefined;
  item_title := JUndefined;
  item_contentSnippet := snippet;
  item_summary := summary;
  item_content := content;
  item_description := description;
  item_pubDate := JUndefined;
  item_link := JUndefined;
  item_enclosure := enclosure;
  item_mediaContent := mediaContent;
  item_itunesImage := None;
  item_itunes_image := None;
  item_itunes := None;
  item_itunesDuration := JUndefined
|}.

Definition audio (url : string) : Item :=
  item_of JUndefined JUndefined JUndefined JUndefined
    (Some {| enc_url := JStr url; enc_type := JStr "audio/mpeg" |}) None.

Definition silent : Item :=
  item_of (JStr "notes only") JUndefined JUndefined JUndefined None None.

Definition feed_of (items : list Item) : Feed := {|
  feed_title := JStr "Show";
  feed_itunes := None;
  feed_image := None;
  feed_items := Some items
|}.

(** An enclosure whose [url] attribute is empty, and no media-content. *)
Definition empty_url : Item :=
  item_of JUndefined JUndefined JUndefined JUndefined
    (Some {| enc_url := JStr ""; enc_type := JStr "audio/mpeg" |}) None.

(** No enclosure, one media-content entry. *)
Definition rendition_only : Item :=
  item_of JUndefined JUndefined JUndefined JUndefined None
    (Some [ {| mc_attrs := Some {| mc_url := JStr "http://pod.example/v.mp4";
                                   mc_type := JStr "video/mp4" |} |} ]).

Definition two_items : list Item :=
  [audio "http://pod.example/1.mp3"; empty_url].

Definition three_items : list Item :=
  [audio "http://pod.example/1.mp3"; silent; audio "http://pod.example/2.mp3"].

Definition req_of (feedUrl : string) : Request :=
  {| query_feedUrl := JStr feedUrl |}.

Definition no_feedUrl : Request := {| query_feedUrl := JUndefined |}.

Definition always (p : ParseOutcome) : string -> ParseOutcome := fun _ => p.

(** An enclosure without a [type] attribute next to a video rendition. *)
Definition untyped_enclosure : Item :=
  item_of JUndefined JUndefined JUndefined JUndefined
    (Some {| enc_url := JStr "http://pod.example/a.mp3"; enc_type := JUndefined |})
    (Some [ {| mc_attrs := Some {| mc_url := JStr "http://pod.example/v.mp4";
                                   mc_type := JStr "video/mp4" |} |} ]).

(** Both an enclosure and a rendition, each with URL and type. *)
Definition both_media : Item :=
  item_of JUndefined JUndefined JUndefined JUndefined
    (Some {| enc_url := JStr "http://pod.example/a.mp3";
             enc_type := JStr "audio/mpeg" |})
    (Some [ {| mc_attrs := Some {| mc_url := JStr "http://pod.example/v.mp4";
                                   mc_type := JStr "video/mp4" |} |} ]).

(** An empty snippet (an empty [description] element) and a summary. *)
Definition empty_snippet : Item :=
  item_of (JStr "") (JStr "Summary") JUndefined JUndefined None None.

Definition summary_only : Item :=
  item_of JUndefined (JStr "Summary") JUndefined JUndefined None None.

(** A feed whose only artwork is the feed-level [itunes:image]. *)
Definition artwork_feed : Feed := {|
  feed_title := JStr "Show";
  feed_itunes := Some {| fi_author := JStr "Host";
                         fi_image := JStr "http://pod.example/cover.jpg" |};
  feed_image := None;
  feed_items := Some [audio "http://pod.example/1.mp3"]
|}.

(** ** Vocabulary of the statements *)

(** The URL the handler passes to the parser: [req.query.feedUrl] is a
    non-empty string, it decodes, and its trimmed form has the scheme. *)
Definition fetch_url (req : Request) : option string :=
  if truthy (query_feedUrl req) then
    match decodeURIComponent (template (query_feedUrl req)) with
    | Some decoded =>
        if is_http_url (trim decoded) then Some (trim decoded) else None
    | None => None
    end
  else None.

(** The cache serves nothing for the request at time [now]. *)
Definition miss (c : gmap string Entry) (now : Z) (req : Request) : Prop :=
  (cache_get c now (keyBuilder req)).1 = None.

(** The parser takes longer than the timer, or never settles. *)
Definition exceeds_timeout (p : ParseOutcome) : Prop :=
  match p with
  | Settles after _ => (TIMEOUT_MS < after)%N
  | Pending => True
  end.

Definition has_media (feed : Feed) (item : Item) : bool :=
  Spec.non_null (ep_mediaUrl (episode_of_item feed item)).

(** A response that was computed by the handler, not replayed. *)
Definition computed (status : Z) (cache_control : option string) (b : Body)
  : Response :=
  {| status := status; x_cache := Some "MISS";
     cache_control := cache_control; body := b |}.

(** A stored body replayed by [cacheMW]. *)
Definition replayed (b : Body) : Response :=
  {| status := 200; x_cache := Some "HIT"; cache_control := None; body := b |}.

(** Every listing carries playable episodes only, at least one, and the
    title and author of the feed it was built from. *)
Definition body_ok (b : Body) : Prop :=
  match b with
  | EpisodesBody title author episodes =>
      episodes <> []
      /\ Forall (fun ep => Spec.non_null (ep_mediaUrl ep) = true) episodes
      /\ exists feed, title = feed_title feed
           /\ author = Spec.author (chain (feed_itunes feed) fi_author)
                                   (feed_title feed)
  | _ => True
  end.

Definition cache_ok (c : gmap string Entry) : Prop :=
  forall key e, c !! key = Some e -> body_ok (entry_v e).

(** The response the [catch] branch produces for an error message. *)
Definition failure_response (message : string) : Response :=
  computed 404 None (ErrorDetailsBody "Feed not found or unavailable" message).

(** [feed.items], read as empty when the property is missing. *)
Definition items_of (feed : Feed) : list Item :=
  match feed_items feed with
  | Some items => items
  | None => []
  end.


(** The string a chain ending in [|| ""] yields. *)
Definition text_of (v : jsval) : string :=
  match v with
  | JStr s => s
  | JUndefined | JNull => ""
  end.

(** The feed with its [itunes] object replaced. *)
Definition with_itunes (fi : option FeedItunes) (feed : Feed) : Feed := {|
  feed_title := feed_title feed;
  feed_itunes := fi;
  feed_image := feed_image feed;
  feed_items := feed_items feed
|}.

From Stdlib Require DecimalString.

(** ** The variant [/episodes] route (second server file)

    No cache, no decoding, no scheme test and no timer: the query value
    goes to the parser as received. *)

Inductive VariantBody : Type :=
| VariantError (error : string)
| VariantEpisodes (episodes : list Episode).

Record VariantOutcome : Type := {
  (** [None]: the parser never settles and nothing is sent *)
  variant_response : option (Z * VariantBody);
  variant_fetched : list string
}.

(** [feed.items.map(...).filter((e) => e.mediaUrl)] *)
Definition variant_episodes_of (feed : Feed) (items : list Item) : list Episode :=
  List.filter playable (List.map (variant_episode_of_item feed) items).

Definition variant_failure : Z * VariantBody :=
  (500, VariantError "Failed to fetch episodes").

(** The [try] block once the parser has settled; a rejection, a [feed]
    or [feed.items] that cannot be read and an empty listing all end in
    the [catch] branch. *)
Definition variant_render (s : Settlement) : Z * VariantBody :=
  match s with
  | Reject _ => variant_failure
  | Resolve None => variant_failure
  | Resolve (Some feed) =>
      match feed_items feed with
      | None => variant_failure
      | Some items =>
          match variant_episodes_of feed items with
          | [] => variant_failure
          | episodes => (200, VariantEpisodes episodes)
          end
      end
  end.

Definition variant_episodes_route (req : Request)
    (parseURL : string -> ParseOutcome) : VariantOutcome :=
  if negb (truthy (query_feedUrl req)) then
    {| variant_response := Some (400, VariantError "Missing feedUrl");
       variant_fetched := [] |}
  else
    let feedUrl := template (query_feedUrl req) in
    match parseURL feedUrl with
    | Settles _ s =>
        {| variant_response := Some (variant_render s);
           variant_fetched := [feedUrl] |}
    | Pending =>
        {| variant_response := None; variant_fetched := [feedUrl] |}
    end.

(** ** [node-cache] at any value type

    [get] and [set] of a [NodeCache] created with [stdTTL: ttl] (seconds),
    as the helpers below use it. *)

Record Stored (V : Type) : Type := {
  stored_v : V;
  stored_t : Z
}.

Arguments stored_v {V} _.
Arguments stored_t {V} _.

Definition stored_expired {V : Type} (e : Stored V) (now : Z) : bool :=
  negb (stored_t e =? 0) && (stored_t e <? now).

Definition nc_get {V : Type} (c : gmap string (Stored V)) (now : Z)
    (key : string) : option V * gmap string (Stored V) :=
  match c !! key with
  | Some e =>
      if stored_expired e now then (None, delete key c)
      else (Some (stored_v e), c)
  | None => (None, c)
  end.

Definition nc_set {V : Type} (ttl : Z) (c : gmap string (Stored V)) (now : Z)
    (key : string) (value : V) : gmap string (Stored V) :=
  <[key := {| stored_v := value; stored_t := now + ttl * 1000 |}]> c.

(** [const hit = cache.get(key); if (hit) ...]: the value served, if any,
    and the cache after the lookup. *)
Definition served {V : Type} (is_truthy : V -> bool)
    (c : gmap string (Stored V)) (now : Z) (key : string)
  : option V * gmap string (Stored V) :=
  match nc_get c now key with
  | (Some hit, c1) => if is_truthy hit then (Some hit, c1) else (None, c1)
  | (None, c1) => (None, c1)
  end.

(** ** [cachedRoute] (second server file)

    [Data] is whatever the wrapped handler returns; [is_truthy] tells
    which of its values pass [if (hit)]. *)

Inductive HandlerOutcome (Data : Type) : Type :=
| Returns (after : N) (data : Data)
| Throws (after : N) (message : string)
| Hangs.

Arguments Returns {Data} _ _.
Arguments Throws {Data} _ _.
Arguments Hangs {Data}.

Inductive RouteBody (Data : Type) : Type :=
| DataBody (data : Data)
| MessageBody (error : string).

Arguments DataBody {Data} _.
Arguments MessageBody {Data} _.

Record CachedOutcome (Data : Type) : Type := {
  cached_response : option (Z * RouteBody Data);
  cached_cache : gmap string (Stored Data);
  (** whether the wrapped handler was called *)
  cached_ran : bool
}.

Arguments cached_response {Data} _.
Arguments cached_cache {Data} _.
Arguments cached_ran {Data} _.

(** [new NodeCache({ stdTTL: 90, checkperiod: 120 })] *)
Definition variant_stdTTL : Z := 90.

(** [cachedRoute(keyFn, handler)] on a request whose key is [key], at
    time [now]; [handler] is what the wrapped handler does when called. *)
Definition cachedRoute {Data : Type} (is_truthy : Data -> bool)
    (c : gmap string (Stored Data)) (now : Z) (key : string)
    (handler : HandlerOutcome Data) : CachedOutcome Data :=
  match served is_truthy c now key with
  | (Some hit, c1) =>
      {| cached_response := Some (200, DataBody hit);
         cached_cache := c1; cached_ran := false |}
  | (None, c1) =>
      match handler with
      | Returns after data =>
          {| cached_response := Some (200, DataBody data);
             cached_cache := nc_set variant_stdTTL c1 (now + Z.of_N after) key data;
             cached_ran := true |}
      | Throws _ message =>
          {| cached_response := Some (500, MessageBody message);
             cached_cache := c1; cached_ran := true |}
      | Hangs =>
          {| cached_response := None; cached_cache := c1; cached_ran := true |}
      end
  end.

(** ** Signed requests to the directory API ([Server_backup.cjs])

    [sha1_hex] stands for the SHA-1 digest in hexadecimal of the [crypto]
    module; [API_KEY] and [API_SECRET] are the two environment values. *)

Record AuthHeaders : Type := {
  user_agent : string;
  x_auth_date : string;
  x_auth_key : string;
  authorization : string
}.

(** [v?.trim()] *)
Definition trim_opt (v : jsval) : jsval :=
  match v with
  | JStr s => JStr (trim s)
  | JUndefined | JNull => JUndefined
  end.

(** The decimal text of an integer, as string concatenation and
    [toString] give it. *)
Definition decimal (z : Z) : string :=
  DecimalString.NilZero.string_of_int (Z.to_int z).

(** [inl message] is the thrown [Error]. *)
Definition getAuthHeaders (sha1_hex : string -> string)
    (API_KEY API_SECRET : jsval) (now : Z) : string + AuthHeaders :=
  let timestamp := now / 1000 in
  let key := trim_opt API_KEY in
  let secret := trim_opt API_SECRET in
  if negb (truthy key) || negb (truthy secret) then
    inl "Missing PodcastIndex API credentials"
  else
    inr {| user_agent := "Pods/1.0 (+https://podstudio.ca)";
           x_auth_date := decimal timestamp;
           x_auth_key := template key;
           authorization :=
             sha1_hex (template key +:+ template secret +:+ decimal timestamp) |}.

Definition BASE_URL : string := "https://api.podcastindex.org/api/1.0".

(** [`${BASE_URL}${endpoint}${params ? `?${params}` : ""}`] *)
Definition podcastindex_url (endpoint params : string) : string :=
  BASE_URL +:+ endpoint
  +:+ (if truthy (JStr params) then "?" +:+ params else "").

Record IndexOutcome (Data : Type) : Type := {
  (** [None]: the call never settles; [inl message]: it throws *)
  index_result : option (string + Data);
  index_cache : gmap string (Stored Data);
  (** the URLs requested from the directory API *)
  index_requests : list string
}.

Arguments index_result {Data} _.
Arguments index_cache {Data} _.
Arguments index_requests {Data} _.

(** [fetchPodcastIndex(endpoint, params)] at time [now]; [axios_get] is
    what [axios.get(url, { headers, timeout: 8000 })] does. *)
Definition fetchPodcastIndex {Data : Type} (is_truthy : Data -> bool)
    (sha1_hex : string -> string) (API_KEY API_SECRET : jsval)
    (axios_get : string -> AuthHeaders -> HandlerOutcome Data)
    (c : gmap string (Stored Data)) (now : Z) (endpoint params : string)
  : IndexOutcome Data :=
  let url := podcastindex_url endpoint params in
  match served is_truthy c now url with
  | (Some cached, c1) =>
      {| index_result := Some (inr cached); index_cache := c1;
         index_requests := [] |}
  | (None, c1) =>
      match getAuthHeaders sha1_hex API_KEY API_SECRET now with
      | inl message =>
          {| index_result := Some (inl message); index_cache := c1;
             index_requests := [] |}
      | inr headers =>
          match axios_get url headers with
          | Returns after data =>
              {| index_result := Some (inr data);
                 index_cache := nc_set stdTTL c1 (now + Z.of_N after) url data;
                 index_requests := [url] |}
          | Throws _ message =>
              {| index_result := Some (inl message); index_cache := c1;
                 index_requests := [url] |}
          | Hangs =>
              {| index_result := None; index_cache := c1;
                 index_requests := [url] |}
          end
      end
  end.

(** ** The category route: cache key, lookup table and statement *)

(** [(req) => `category:${req.params.name}:${req.query.page}:${req.query.limit}`] *)
Definition category_key (name : string) (page limit : jsval) : string :=
  "category:" +:+ name +:+ ":" +:+ template page +:+ ":" +:+ template limit.

(** What [map[name]] finds: a pattern of the table, a member inherited
    from [Object.prototype] (a function, or the prototype itself: each of
    them truthy), or nothing. *)
Inductive Lookup : Type :=
| Own (pattern : string)
| Inherited
| Absent.

Definition object_prototype_names : list string :=
  ["constructor"; "__defineGetter__"; "__defineSetter__"; "hasOwnProperty";
   "__lookupGetter__"; "__lookupSetter__"; "isPrototypeOf";
   "propertyIsEnumerable"; "toString"; "valueOf"; "__proto__";
   "toLocaleString"].

Definition category_table : list (string * string) :=
  [("sports", "%sport%"); ("news", "%news%"); ("truecrime", "%crime%");
   ("technology", "%tech%"); ("lifestyle", "%life%")].

Fixpoint assoc (name : string) (table : list (string * string)) : option string :=
  match table with
  | [] => None
  | (k, v) :: rest => if String.eqb k name then Some v else assoc name rest
  end.

Definition category_lookup (name : string) : Lookup :=
  match assoc name category_table with
  | Some pattern => Own pattern
  | None =>
      if existsb (String.eqb name) object_prototype_names then Inherited
      else Absent
  end.

(** The capabilities [getPodcastsColumns] reports. *)
Record Caps : Type := {
  hasCountry : bool;
  hasLanguage : bool;
  hasPopularity : bool;
  cat1 : bool;
  cat2 : bool;
  hasDescription : bool;
  hasUrl : bool;
  hasLink : bool;
  hasImageUrl : bool;
  hasItunesAuthor : bool
}.

(** [parts.join(sep)] *)
Definition join (sep : string) (parts : list string) : string :=
  String.concat sep parts.

Definition buildRegionLangFilter (caps : Caps) : string :=
  let parts :=
    ((if hasCountry caps
      then ["(lower(country) IN ('us','usa','united states','ca','canada') OR country IS NULL)"]
      else [])
     ++ (if hasLanguage caps
         then ["(lower(language) IN ('en','english') OR language IS NULL)"]
         else []))%list in
  match parts with
  | [] => ""
  | _ :: _ => "AND " +:+ join " AND " parts
  end.

Definition orderByPopularity (caps : Caps) : string :=
  if hasPopularity caps then "ORDER BY popularityScore DESC"
  else "ORDER BY id DESC".

(** [[...].filter(Boolean).join(" OR ")] *)
Definition category_where (caps : Caps) : string :=
  join " OR "
    (List.filter (fun s => truthy (JStr s))
       [ (if cat1 caps then "lower(category1) LIKE lower(?)" else "");
         (if cat2 caps then "lower(category2) LIKE lower(?)" else "") ]).

Definition category_sql (caps : Caps) : string :=
  if negb (cat1 caps) && negb (cat2 caps) then
    "
          SELECT id, title, itunesAuthor AS author, imageUrl AS image, 
                 "
    +:+ (if hasUrl caps then "url" else "NULL AS url")
    +:+ ", 
                 "
    +:+ (if hasLink caps then "link" else "NULL AS link")
    +:+ "
          FROM podcasts 
          WHERE lower(title) LIKE lower(?) "
    +:+ buildRegionLangFilter caps
    +:+ " "
    +:+ orderByPopularity caps
    +:+ " LIMIT ? OFFSET ?;
        "
  else
    "
          SELECT id, title, itunesAuthor AS author, imageUrl AS image, 
                 "
    +:+ (if hasUrl caps then "url" else "NULL AS url")
    +:+ ", 
                 "
    +:+ (if hasLink caps then "link" else "NULL AS link")
    +:+ "
          FROM podcasts
          WHERE ("
    +:+ category_where caps
    +:+ ") "
    +:+ buildRegionLangFilter caps
    +:+ " "
    +:+ orderByPopularity caps
    +:+ " LIMIT ? OFFSET ?;
        ".

(** A value bound to a placeholder: the pattern, a number, or the
    inherited member of the table's prototype. *)
Inductive SqlParam (Num : Type) : Type :=
| PText (s : string)
| PNum (n : Num)
| PObject.

Arguments PText {Num} _.
Arguments PNum {Num} _.
Arguments PObject {Num}.

Definition category_params {Num : Type} (caps : Caps) (matched : SqlParam Num)
    (limit offset : Num) : list (SqlParam Num) :=
  if negb (cat1 caps) && negb (cat2 caps) then
    [matched; PNum limit; PNum offset]
  else if cat1 caps && cat2 caps then
    [matched; matched; PNum limit; PNum offset]
  else
    [matched; PNum limit; PNum offset].

(** From [const match = map[name]] to the statement handed to [dbAll]:
    [None] is the answer 400 "Unknown category". [name] is the lowered
    route parameter. *)
Definition category_statement {Num : Type} (caps : Caps) (name : string)
    (limit offset : Num) : option (string * list (SqlParam Num)) :=
  match category_lookup name with
  | Absent => None
  | Own pattern =>
      Some (category_sql caps, category_params caps (PText pattern) limit offset)
  | Inherited =>
      Some (category_sql caps, category_params caps PObject limit offset)
  end.

(** The number of placeholders of a statement. *)
Fixpoint placeholders (sql : string) : nat :=
  match sql with
  | EmptyString => O
  | String c rest =>
      if (code c =? 63)%N then S (placeholders rest) else placeholders rest
  end.

(** A string as [toLowerCase] returns it has no upper-case ASCII letter. *)
Fixpoint no_upper (s : string) : bool :=
  match s with
  | EmptyString => true
  | String c rest => negb (between 65 (code c) 90) && no_upper rest
  end.

(** ** The podcast summaries of the search, home and trending routes *)

(** An entry of [data.feeds]. *)
Record Feedling : Type := {
  p_id : option Z;
  p_title : jsval;
  p_author : jsval;
  p_itunesAuthor : jsval;
  p_image : jsval;
  p_artwork : jsval;
  p_url : jsval;
  p_link : jsval;
  p_description : jsval
}.

Record Podcast : Type := {
  pod_id : option Z;
  pod_title : jsval;
  pod_author : string;
  pod_image : jsval;
  pod_url : jsval;
  pod_link : jsval;
  pod_description : string
}.

Definition podcast_of (p : Feedling) : Podcast := {|
  pod_id := p_id p;
  pod_title := p_title p;
  pod_author := or_str (JS.or (p_author p) (p_itunesAuthor p)) "Unknown";
  pod_image := JS.or (p_image p) (p_artwork p);
  pod_url := JS.or (p_url p) (p_link p);
  pod_link := p_link p;
  pod_description := or_str (p_description p) ""
|}.

(** [feeds?.map(...) || []] *)
Definition mapFeeds (feeds : option (list Feedling)) : list Podcast :=
  match feeds with
  | Some l => List.map podcast_of l
  | None => []
  end.

(** ** Vocabulary of the further statements *)

(** Null or a non-empty string: neither [undefined] nor the empty
    string. *)
Definition null_or_text (v : jsval) : Prop :=
  v = JNull \/ exists s, s <> "" /\ v = JStr s.

(** The nullable fields of an episode. *)
Definition nullable_fields (ep : Episode) : list jsval :=
  [ep_guid ep; ep_pubDate ep; ep_link ep; ep_mediaUrl ep; ep_mediaType ep;
   ep_image ep; ep_duration ep].

(** The item has an enclosure with a non-empty URL. *)
Definition has_enclosure_url (item : Item) : bool :=
  truthy (chain (item_enclosure item) enc_url).

(** No colon in the string. *)
Fixpoint colon_free (s : string) : bool :=
  match s with
  | EmptyString => true
  | String c rest => negb (code c =? 58)%N && colon_free rest
  end.

(** The names the category route does not answer with "Unknown
    category". *)
Definition accepted_categories : list string :=
  ["sports"; "news"; "truecrime"; "technology"; "lifestyle";
   "constructor"; "__proto__"].

(** ** Requests served one after the other *)

Record Arrival : Type := {
  at_time : Z;
  at_request : Request;
  at_parser : string -> ParseOutcome
}.

(** The outcomes of a sequence of requests, each served on the cache the
    previous one left. *)
Fixpoint serve (c : gmap string Entry) (trace : list Arrival) : list Outcome :=
  match trace with
  | [] => []
  | a :: rest =>
      let o := episodes_route c (at_time a) (at_request a) (at_parser a) in
      o :: serve (cache_after o) rest
  end.

(** ** Lemmas on the JavaScript operators *)

Example trim_both_ends :
  trim (String "009" "  http://pod.example/rss " +:+ String "194" (String "160" ""))
  = "http://pod.example/rss".
Proof. reflexivity. Qed.

Example trim_keeps_inner_space : trim " a  b " = "a  b".
Proof. reflexivity. Qed.

Example decode_escapes :
  decodeURIComponent "http%3A%2F%2Fpod.example%2Frss%20" = Some "http://pod.example/rss ".
Proof. reflexivity. Qed.

Example decode_lone_percent : decodeURIComponent "100%" = None.
Proof. reflexivity. Qed.

Example decode_overlong : decodeURIComponent "%C0%AF" = None.
Proof. reflexivity. Qed.

Example scheme_any_case :
  is_http_url "HtTpS://pod.example" = true /\ is_http_url "ftp://x" = false
  /\ is_http_url "http:/x" = false /\ is_http_url " http://x" = false.
Proof. repeat split; reflexivity. Qed.

Lemma truthy_JStr s : truthy (JStr s) = true <-> s <> "".
Proof.
  simpl. destruct (String.eqb_spec s ""); simpl; split; congruence.
Qed.

Lemma or_first_truthy a l : JS.or a (first_truthy l) = first_truthy (a :: l).
Proof. unfold JS.or. simpl. reflexivity. Qed.

Lemma or_null a : JS.or a JNull = first_truthy [a].
Proof. apply (or_first_truthy a []). Qed.

Lemma or_assoc a b c : JS.or (JS.or a b) c = JS.or a (JS.or b c).
Proof. unfold JS.or. destruct (truthy a) eqn:Ha; [rewrite Ha|]; reflexivity. Qed.

Lemma first_truthy_cases l :
  first_truthy l = JNull \/ exists s, s <> "" /\ first_truthy l = JStr s.
Proof.
  induction l as [|v r IH]; simpl; [now left|].
  destruct (truthy v) eqn:Hv; [|exact IH].
  destruct v as [| |s]; simpl in Hv; try discriminate.
  right. exists s. split; [|reflexivity].
  now apply truthy_JStr.
Qed.

Lemma first_truthy_truthy l :
  truthy (first_truthy l) = Spec.non_null (first_truthy l).
Proof.
  destruct (first_truthy_cases l) as [-> | (s & Hs & ->)]; [reflexivity|].
  simpl. apply truthy_JStr in Hs. exact Hs.
Qed.

Lemma nullish_null_truthy a : truthy (nullish a JNull) = truthy a.
Proof. destruct a; reflexivity. Qed.

Lemma or_nullish_null a : JS.or (nullish a JNull) JNull = JS.or a JNull.
Proof. destruct a; reflexivity. Qed.

(** ** The item mapping *)

Lemma mediaUrl_of_chain item :
  mediaUrl_of item
  = first_truthy [chain (item_enclosure item) enc_url; mc0 item mc_url].
Proof.
  unfold mediaUrl_of. rewrite or_assoc, or_nullish_null, or_null.
  apply or_first_truthy.
Qed.

Lemma mediaType_of_chain item :
  mediaType_of item
  = first_truthy [chain (item_enclosure item) enc_type; mc0 item mc_type].
Proof.
  unfold mediaType_of. rewrite or_assoc, or_nullish_null, or_null.
  apply or_first_truthy.
Qed.

(** The filter [!!ep.mediaUrl] keeps exactly the episodes whose media URL
    is not null: the mapping never yields an empty string. *)
Lemma playable_has_media feed item :
  playable (episode_of_item feed item) = has_media feed item.
Proof.
  unfold playable, has_media. simpl. rewrite mediaUrl_of_chain.
  apply first_truthy_truthy.
Qed.

Lemma episodes_of_filter feed items :
  episodes_of feed items
  = List.map (episode_of_item feed) (List.filter (has_media feed) items).
Proof.
  unfold episodes_of. induction items as [|it r IH]; simpl; [reflexivity|].
  rewrite playable_has_media. destruct (has_media feed it); simpl; congruence.
Qed.

Lemma episodes_of_non_null feed items :
  Forall (fun ep => Spec.non_null (ep_mediaUrl ep) = true) (episodes_of feed items).
Proof.
  rewrite episodes_of_filter. apply List.Forall_forall. intros ep Hin.
  apply List.in_map_iff in Hin as (it & <- & Hit).
  apply List.filter_In in Hit as [_ Hit]. exact Hit.
Qed.

(** ** The handler and the route on a request that passes validation *)

Lemma handler_fetches req p url :
  fetch_url req = Some url ->
  episodes_handler (query_feedUrl req) p
  = {| handled_reply := Some (render (race (p url)).2);
       handled_elapsed := (race (p url)).1;
       handled_fetched := [url] |}.
Proof.
  unfold fetch_url, episodes_handler. intros H.
  destruct (truthy (query_feedUrl req)); [simpl|discriminate].
  destruct (decodeURIComponent _) as [d|]; [|discriminate].
  destruct (is_http_url (trim d)); [simpl|discriminate].
  injection H as <-. destruct (race (p (trim d))) as [e s]. reflexivity.
Qed.

Lemma route_computes c now req p url :
  miss c now req ->
  fetch_url req = Some url ->
  let r := render (race (p url)).2 in
  response (episodes_route c now req p)
  = Some (computed (reply_status r) (reply_cache_control r) (reply_body r))
  /\ fetched (episodes_route c now req p) = [url].
Proof.
  unfold miss, episodes_route. intros Hmiss Hurl.
  destruct (cache_get c now (keyBuilder req)) as [hit c1]. simpl in Hmiss.
  subst hit. rewrite (handler_fetches _ p _ Hurl). simpl. split; reflexivity.
Qed.

Lemma race_in_time after s :
  (after < TIMEOUT_MS)%N -> race (Settles after s) = (after, s).
Proof.
  intros H. unfold race. apply N.ltb_lt in H. rewrite H. reflexivity.
Qed.

Lemma race_timeout p :
  exceeds_timeout p -> race p = (TIMEOUT_MS, Reject "Feed fetch timed out").
Proof.
  destruct p as [after s|]; simpl; [|reflexivity].
  intros H. apply N.lt_asymm, N.ltb_nlt in H. rewrite H. reflexivity.
Qed.

Lemma render_feed_listing feed items :
  feed_items feed = Some items ->
  List.filter (has_media feed) items <> [] ->
  render_feed (Some feed)
  = {| reply_status := 200;
       reply_cache_control := Some "public, max-age=60";
       reply_body :=
         EpisodesBody (feed_title feed) (author_of feed)
           (List.map (episode_of_item feed) (List.filter (has_media feed) items)) |}.
Proof.
  intros Hitems Hne. unfold render_feed. rewrite Hitems.
  destruct items as [|it r]; [now destruct Hne|].
  rewrite episodes_of_filter.
  destruct (List.filter (has_media feed) (it :: r)) as [|k ks]; [now destruct Hne|].
  reflexivity.
Qed.

Lemma filter_map_comm {A B} (f : A -> B) (g : B -> bool) l :
  List.filter g (List.map f l) = List.map f (List.filter (fun x => g (f x)) l).
Proof.
  induction l as [|x r IH]; [reflexivity|].
  cbn [List.map List.filter]. destruct (g (f x)); cbn [List.map]; now rewrite IH.
Qed.

Lemma filter_none {A} (f : A -> bool) l :
  Forall (fun x => f x = false) l -> List.filter f l = [].
Proof.
  induction 1 as [|x r Hx _ IH]; simpl; [reflexivity|]. now rewrite Hx.
Qed.

Lemma filter_some {A} (f : A -> bool) l :
  Exists (fun x => f x = true) l -> List.filter f l <> [].
Proof.
  induction 1 as [x r Hx|x r _ IH]; simpl.
  - now rewrite Hx.
  - destruct (f x); [discriminate|exact IH].
Qed.


(** The listing of a feed that parses in time, in terms of the episodes
    the mapping yields. *)
Lemma route_lists_has_media_items
    c now req (p : string -> ParseOutcome) url after feed items :
  miss c now req ->
  fetch_url req = Some url ->
  p url = Settles after (Resolve (Some feed)) ->
  (after < TIMEOUT_MS)%N ->
  feed_items feed = Some items ->
  Exists (fun it => has_media feed it = true) items ->
  response (episodes_route c now req p)
  = Some (computed 200 (Some "public, max-age=60")
            (EpisodesBody (feed_title feed) (author_of feed)
               (List.map (episode_of_item feed)
                  (List.filter (has_media feed) items)))).
Proof.
  intros Hmiss Hurl Hp Hafter Hitems Hex.
  destruct (route_computes c now req p url Hmiss Hurl) as [Hresp _].
  rewrite Hp, (race_in_time _ _ Hafter) in Hresp. cbn [snd render] in Hresp.
  rewrite (render_feed_listing feed items Hitems (filter_some _ _ Hex)) in Hresp.
  exact Hresp.
Qed.

(** The media URL of an episode, read on the item as parsed. *)
Lemma episode_media_url feed item :
  ep_mediaUrl (episode_of_item feed item) = media_url_of_item item.
Proof.
  cbn [ep_mediaUrl episode_of_item].
  unfold mediaUrl_of, media_url_of_item, mc0, mc_of,
    Spec.enclosure_url, Spec.first_media_content_url.
  destruct (item_enclosure item) as [[u t]|];
    destruct (item_mediaContent item) as [[|[[[v w]|]] r]|]; cbn;
    try (destruct u as [| |[|? ?]]); try (destruct v as [| |[|? ?]]);
    reflexivity.
Qed.

Lemma has_media_raw feed item : has_media feed item = has_media_url item.
Proof.
  unfold has_media. rewrite episode_media_url.
  unfold media_url_of_item, has_media_url.
  destruct (Spec.enclosure_url item) as [| |[|? ?]];
    destruct (Spec.first_media_content_url item) as [| |[|? ?]]; reflexivity.
Qed.

Lemma filter_has_media feed items :
  List.filter (has_media feed) items = List.filter has_media_url items.
Proof. apply List.filter_ext. intros it. apply has_media_raw. Qed.

(** C1 does not hold as worded. Under the mapping "enclosure URL, else
    first media-content URL, else null, first non-null wins", an item
    whose enclosure carries an empty [url] has a non-null media URL; the
    route drops it, so a feed of two such items is answered with one
    episode. *)
Lemma C1_empty_enclosure_url_is_dropped :
  Spec.non_null (Spec.mediaUrl empty_url) = true
  /\ response (episodes_route ∅ 0 (req_of "http://pod.example/rss")
                 (always (Settles 40 (Resolve (Some (feed_of two_items))))))
     = Some (computed 200 (Some "public, max-age=60")
               (EpisodesBody (JStr "Show") "Show"
                  [episode_of_item (feed_of two_items)
                     (audio "http://pod.example/1.mp3")]))
  /\ List.length [episode_of_item (feed_of two_items)
                    (audio "http://pod.example/1.mp3")]
     <> List.length
          (List.filter (fun it => Spec.non_null (Spec.mediaUrl it)) two_items).
Proof. split; [reflexivity|]. split; [reflexivity|]. vm_compute. discriminate. Qed.

(** C1, amended. A feed that parses in time and has at least one item
    with a media URL (a non-empty enclosure URL or, failing that, a
    non-empty URL on its first media-content entry) is answered, on a
    request that is not served from the cache, with status 200 and the
    episodes of exactly those items, in the order of the document: the
    listing has as many episodes as there are such items, the media URL
    of each episode is the enclosure URL when that is non-empty and the
    URL of the first media-content entry otherwise, and no episode has a
    null or empty [mediaUrl]. *)
Theorem C1_listing_keeps_items_with_media_url_in_order
    c now req (p : string -> ParseOutcome) url after feed items :
  miss c now req ->
  fetch_url req = Some url ->
  p url = Settles after (Resolve (Some feed)) ->
  (after < TIMEOUT_MS)%N ->
  feed_items feed = Some items ->
  Exists (fun it => has_media_url it = true) items ->
  let kept := List.filter has_media_url items in
  let episodes := List.map (episode_of_item feed) kept in
  response (episodes_route c now req p)
  = Some (computed 200 (Some "public, max-age=60")
            (EpisodesBody (feed_title feed) (author_of feed) episodes))
  /\ List.map ep_mediaUrl episodes = List.map media_url_of_item kept
  /\ List.length episodes = List.length kept
  /\ Forall (fun ep => exists u, u <> "" /\ ep_mediaUrl ep = JStr u) episodes.
Proof.
  intros Hmiss Hurl Hp Hafter Hitems Hex kept episodes.
  assert (Hex' : Exists (fun it => has_media feed it = true) items).
  { eapply List.Exists_impl; [|exact Hex]. intros it H. now rewrite has_media_raw. }
  pose proof (route_lists_has_media_items c now req p url after feed items
                Hmiss Hurl Hp Hafter Hitems Hex') as Hresp.
  rewrite filter_has_media in Hresp.
  split; [exact Hresp|]. split; [|split].
  - subst episodes. rewrite List.map_map. apply List.map_ext.
    intros it. apply episode_media_url.
  - apply List.length_map.
  - apply List.Forall_forall. intros ep Hin.
    apply List.in_map_iff in Hin as (it & <- & Hit).
    apply List.filter_In in Hit as [_ Hit].
    rewrite episode_media_url. unfold has_media_url in Hit.
    unfold media_url_of_item.
    destruct (Spec.enclosure_url it) as [| |[|a u]];
      destruct (Spec.first_media_content_url it) as [| |[|b v]];
      try discriminate Hit; cbn [non_empty];
      eexists; (split; [|reflexivity]); discriminate.
Qed.

Lemma C1_listing_witness :
  response (episodes_route ∅ 0 (req_of "http://pod.example/rss")
              (always (Settles 40 (Resolve (Some (feed_of
                 [audio "http://pod.example/1.mp3"; empty_url; rendition_only]))))))
  = Some (computed 200 (Some "public, max-age=60")
            (EpisodesBody (JStr "Show") "Show"
               (List.map (episode_of_item (feed_of
                  [audio "http://pod.example/1.mp3"; empty_url; rendition_only]))
                  [audio "http://pod.example/1.mp3"; rendition_only]))).
Proof.
  refine (proj1 (C1_listing_keeps_items_with_media_url_in_order
                   ∅ 0 (req_of "http://pod.example/rss")
                   (always (Settles 40 (Resolve (Some (feed_of
                      [audio "http://pod.example/1.mp3"; empty_url; rendition_only])))))
                   "http://pod.example/rss" 40
                   (feed_of [audio "http://pod.example/1.mp3"; empty_url; rendition_only])
                   [audio "http://pod.example/1.mp3"; empty_url; rendition_only]
                   _ _ _ _ _ _)).
  - reflexivity.
  - reflexivity.
  - reflexivity.
  - reflexivity.
  - reflexivity.
  - apply Exists_cons_hd. reflexivity.
Defined.

(** A parser that rejects in time is answered from the [catch] branch. *)
Lemma route_failure c now req (p : string -> ParseOutcome) url after message :
  miss c now req ->
  fetch_url req = Some url ->
  p url = Settles after (Reject message) ->
  (after < TIMEOUT_MS)%N ->
  response (episodes_route c now req p) = Some (failure_response message).
Proof.
  intros Hmiss Hurl Hp Hafter.
  destruct (route_computes c now req p url Hmiss Hurl) as [Hresp _].
  rewrite Hp, (race_in_time _ _ Hafter) in Hresp. exact Hresp.
Qed.



(** C7. When the parser takes longer than the 9000 ms timer, or never
    settles, the race rejects with "Feed fetch timed out" and the handler
    answers from its [catch] branch: status 404, error "Feed not found or
    unavailable", the message in [details]. A fetch error with message
    [m] gets the response built by the same function, so a time-out is
    rendered exactly as a fetch error with that message. *)
Theorem C7_timeout_rendered_as_fetch_error
    c now req (p : string -> ParseOutcome) url :
  miss c now req ->
  fetch_url req = Some url ->
  exceeds_timeout (p url) ->
  race (p url) = (TIMEOUT_MS, Reject "Feed fetch timed out")
  /\ response (episodes_route c now req p)
     = Some (failure_response "Feed fetch timed out")
  /\ (forall (p' : string -> ParseOutcome) after message,
        p' url = Settles after (Reject message) ->
        (after < TIMEOUT_MS)%N ->
        response (episodes_route c now req p') = Some (failure_response message))
  /\ (forall (p' : string -> ParseOutcome) after,
        p' url = Settles after (Reject "Feed fetch timed out") ->
        (after < TIMEOUT_MS)%N ->
        response (episodes_route c now req p')
        = response (episodes_route c now req p)).
Proof.
  intros Hmiss Hurl Hlate.
  assert (Hresp : response (episodes_route c now req p)
                  = Some (failure_response "Feed fetch timed out")).
  { destruct (route_computes c now req p url Hmiss Hurl) as [Hresp _].
    rewrite (race_timeout _ Hlate) in Hresp. exact Hresp. }
  split; [now apply race_timeout|]. split; [exact Hresp|]. split.
  - intros p' after message Hp' Hafter.
    now apply (route_failure c now req p' url after message).
  - intros p' after Hp' Hafter. rewrite Hresp.
    now apply (route_failure c now req p' url after).
Qed.

Lemma C7_timeout_witness :
  response (episodes_route ∅ 0 (req_of "http://pod.example/rss") (always Pending))
  = Some (failure_response "Feed fetch timed out").
Proof.
  refine (proj1 (proj2 (C7_timeout_rendered_as_fetch_error
                          ∅ 0 (req_of "http://pod.example/rss") (always Pending)
                          "http://pod.example/rss" _ _ _))).
  - reflexivity.
  - reflexivity.
  - exact I.
Defined.

(** ** Field precedence *)

(** A chain of [||] is decided by which of its operands are [undefined],
    [null], empty or non-empty strings. *)
Ltac by_operand v :=
  let s := fresh "s" in
  destruct v as [| |s] eqn:?; [| |destruct s]; simpl.

Lemma or3_text a b c :
  or_str (JS.or (JS.or a b) c) "" = text_of (first_truthy [a; b; c]).
Proof. by_operand a; try reflexivity; by_operand b; try reflexivity; by_operand c; reflexivity. Qed.

Lemma or2_text a b :
  or_str (JS.or a b) "" = text_of (first_truthy [a; b]).
Proof. by_operand a; try reflexivity; by_operand b; reflexivity. Qed.

Lemma or3_null a b c :
  JS.or (JS.or (JS.or a b) c) JNull = first_truthy [a; b; c].
Proof. by_operand a; try reflexivity; by_operand b; try reflexivity; by_operand c; reflexivity. Qed.

Lemma or2_author a b :
  or_str (JS.or a b) "Unknown" = Spec.author a b.
Proof. by_operand a; try reflexivity; by_operand b; reflexivity. Qed.

Lemma author_of_spec feed :
  author_of feed
  = Spec.author (chain (feed_itunes feed) fi_author) (feed_title feed).
Proof. apply or2_author. Qed.

(** *** Media URL and type *)

(** C3 does not hold as worded: with an enclosure that has a URL but no
    type, next to a media-content entry, the episode takes its URL from
    the enclosure and its type from the media-content entry, although the
    enclosure field is there. *)
Lemma C3_untyped_enclosure_takes_rendition_type :
  ~ (ep_mediaUrl (episode_of_item (feed_of []) untyped_enclosure)
     = Spec.media untyped_enclosure enc_url mc_url
     /\ ep_mediaType (episode_of_item (feed_of []) untyped_enclosure)
        = Spec.media untyped_enclosure enc_type mc_type).
Proof. intros [_ H]. discriminate H. Qed.

(** C3, amended. The media URL is the enclosure's URL when that is a
    non-empty string, else the URL of the first media-content entry when
    that is a non-empty string, else null; the media type is chosen the
    same way among the two [type] attributes, independently of where the
    URL came from. The fallback is per attribute, not per enclosure. *)
Theorem C3_media_precedence_per_attribute feed item :
  ep_mediaUrl (episode_of_item feed item)
  = first_truthy [chain (item_enclosure item) enc_url; mc0 item mc_url]
  /\ ep_mediaType (episode_of_item feed item)
     = first_truthy [chain (item_enclosure item) enc_type; mc0 item mc_type].
Proof. split; [apply mediaUrl_of_chain | apply mediaType_of_chain]. Qed.

(** With URL and type on the enclosure, the enclosure wins both. *)
Lemma enclosure_wins feed item e u t :
  item_enclosure item = Some e ->
  enc_url e = JStr u -> u <> "" ->
  enc_type e = JStr t -> t <> "" ->
  ep_mediaUrl (episode_of_item feed item) = JStr u
  /\ ep_mediaType (episode_of_item feed item) = JStr t.
Proof.
  intros He Hu Hu' Ht Ht'. simpl.
  rewrite mediaUrl_of_chain, mediaType_of_chain, He. simpl. rewrite Hu, Ht.
  apply truthy_JStr in Hu', Ht'. now rewrite Hu', Ht'.
Qed.

(** *** Description *)

(** C8 does not hold as worded. In [Server_backup.cjs] an empty snippet is
    not null, yet the summary is taken; the variant route never reads the
    summary. *)
Lemma C8_empty_snippet_and_variant_summary :
  ep_description (episode_of_item (feed_of []) empty_snippet)
  <> Spec.description (item_contentSnippet empty_snippet)
       (item_summary empty_snippet) (item_description empty_snippet)
  /\ ep_description (variant_episode_of_item (feed_of []) summary_only)
     <> Spec.description (item_contentSnippet summary_only)
          (item_summary summary_only) (item_content summary_only).
Proof. split; discriminate. Qed.

(** C8, amended. In [Server_backup.cjs] the description is the first
    non-empty string among the item's [contentSnippet], [summary] and
    [description] properties, else the empty string; in the variant route
    it is the first non-empty string among [contentSnippet] and
    [content], else the empty string. *)
Theorem C8_description_first_non_empty feed item :
  ep_description (episode_of_item feed item)
  = text_of (first_truthy [item_contentSnippet item; item_summary item;
                           item_description item])
  /\ ep_description (variant_episode_of_item feed item)
     = text_of (first_truthy [item_contentSnippet item; item_content item]).
Proof. split; [apply or3_text | apply or2_text]. Qed.

(** *** Image *)

(** C9 does not hold as worded: [Server_backup.cjs] never reads the
    feed-level artwork, so an item without artwork of its own in a feed
    that has only [itunes:image] gets no image. *)
Lemma C9_feed_artwork_not_consulted :
  ep_image (episode_of_item artwork_feed (audio "http://pod.example/1.mp3"))
  = JNull
  /\ ep_image (episode_of_item artwork_feed (audio "http://pod.example/1.mp3"))
     <> Spec.image
          (JS.or (chain (item_itunesImage (audio "http://pod.example/1.mp3")) href)
                 (chain (item_itunes_image (audio "http://pod.example/1.mp3")) href))
          (chain (feed_itunes artwork_feed) fi_image)
          (chain (feed_image artwork_feed) img_url).
Proof. split; [reflexivity | discriminate]. Qed.

(** C9, amended. In [Server_backup.cjs] the image is the first non-empty
    string among the item's [itunesImage.href], the item's
    ["itunes:image"].href and the feed's [image.url], else null, whatever
    the feed's [itunes] object holds; the chain item artwork, feed
    artwork, feed image, null is the one of the variant route, which reads
    [item.itunes.image], [feed.itunes.image] and [feed.image.url]. *)
Theorem C9_image_fallback_chain feed item :
  ep_image (episode_of_item feed item)
  = first_truthy [chain (item_itunesImage item) href;
                  chain (item_itunes_image item) href;
                  chain (feed_image feed) img_url]
  /\ (forall fi,
        ep_image (episode_of_item (with_itunes fi feed) item)
        = ep_image (episode_of_item feed item))
  /\ ep_image (variant_episode_of_item feed item)
     = first_truthy [chain (item_itunes item) ii_image;
                     chain (feed_itunes feed) fi_image;
                     chain (feed_image feed) img_url].
Proof.
  split; [apply or3_null|]. split; [reflexivity | apply or3_null].
Qed.

(** ** What the cache holds *)

Lemma render_body_ok s : body_ok (reply_body (render s)).
Proof.
  destruct s as [[f|]|m]; simpl; trivial.
  destruct (feed_items f) as [[|it r]|]; simpl; trivial.
  destruct (episodes_of f (it :: r)) as [|ep eps] eqn:E; simpl; trivial.
  split; [discriminate|]. split.
  - rewrite <- E. apply episodes_of_non_null.
  - exists f. split; [reflexivity | apply author_of_spec].
Qed.

Lemma handler_body_ok raw p r :
  handled_reply (episodes_handler raw p) = Some r -> body_ok (reply_body r).
Proof.
  unfold episodes_handler.
  destruct (truthy raw); simpl; [|intros [= <-]; exact I].
  destruct (decodeURIComponent (template raw)) as [d|]; simpl; [|discriminate].
  destruct (is_http_url (trim d)); simpl; [|intros [= <-]; exact I].
  destruct (race (p (trim d))) as [e s]. simpl. intros [= <-].
  apply render_body_ok.
Qed.

Lemma cache_get_ok c now key :
  cache_ok c ->
  cache_ok (cache_get c now key).2
  /\ forall b, (cache_get c now key).1 = Some b -> body_ok b.
Proof.
  intros Hc. unfold cache_get.
  destruct (c !! key) as [e|] eqn:He; [|split; [exact Hc|discriminate]].
  destruct (expired e now); simpl.
  - split; [|discriminate]. intros k e' Hk.
    apply lookup_delete_Some in Hk as [_ Hk]. exact (Hc k e' Hk).
  - split; [exact Hc|]. intros b [= <-]. exact (Hc key e He).
Qed.

Lemma cache_set_ok c now key b :
  cache_ok c -> body_ok b -> cache_ok (cache_set c now key b).
Proof.
  intros Hc Hb k e. unfold cache_set. rewrite lookup_insert.
  case_decide; [intros [= <-]; exact Hb | apply Hc].
Qed.

Lemma cache_ok_empty : cache_ok ∅.
Proof. intros k e H. rewrite lookup_empty in H. discriminate. Qed.

(** The route keeps the cache sound, and every body it sends is sound. *)
Lemma route_sound c now req p :
  cache_ok c ->
  cache_ok (cache_after (episodes_route c now req p))
  /\ forall r, response (episodes_route c now req p) = Some r -> body_ok (body r).
Proof.
  intros Hc. unfold episodes_route.
  destruct (cache_get_ok c now (keyBuilder req) Hc) as [Hc1 Hhit].
  destruct (cache_get c now (keyBuilder req)) as [[hit|] c1]; simpl in *.
  - split; [exact Hc1|]. intros r [= <-]. simpl. now apply Hhit.
  - destruct (handled_reply (episodes_handler (query_feedUrl req) p)) as [r0|] eqn:Hr;
      simpl.
    + pose proof (handler_body_ok _ _ _ Hr) as Hb. split.
      * now apply cache_set_ok.
      * intros r [= <-]. exact Hb.
    + split; [exact Hc1|discriminate].
Qed.

(** A listing computed by the handler comes from the feed the parser
    resolved with, in time, for the validated URL. *)
Lemma handler_listing req p r title author episodes :
  handled_reply (episodes_handler (query_feedUrl req) p) = Some r ->
  reply_body r = EpisodesBody title author episodes ->
  exists url after feed,
    fetch_url req = Some url
    /\ p url = Settles after (Resolve (Some feed))
    /\ (after < TIMEOUT_MS)%N
    /\ title = feed_title feed
    /\ author = author_of feed
    /\ episodes = episodes_of feed (items_of feed).
Proof.
  unfold episodes_handler, fetch_url.
  destruct (truthy (query_feedUrl req)); simpl; [|intros [= <-]; discriminate].
  destruct (decodeURIComponent _) as [d|]; simpl; [|discriminate].
  destruct (is_http_url (trim d)); simpl; [|intros [= <-]; discriminate].
  destruct (p (trim d)) as [after s|] eqn:Hp; simpl;
    [|intros [= <-]; discriminate].
  destruct (after <? TIMEOUT_MS)%N eqn:Hafter; simpl;
    [|intros [= <-]; discriminate].
  intros [= <-]. destruct s as [[f|]|m]; simpl; try discriminate.
  unfold items_of.
  destruct (feed_items f) as [[|it r]|] eqn:Hitems; simpl; try discriminate.
  destruct (episodes_of f (it :: r)) as [|ep eps] eqn:E; simpl; try discriminate.
  intros [= <- <- <-]. exists (trim d), after, f.
  apply N.ltb_lt in Hafter. repeat split; trivial.
  now rewrite Hitems, E.
Qed.

(** C10. On every response of the route that carries a listing, on a
    cache whose listings were stored by the route, the top-level author
    is the feed's [itunes.author] when that is present (a non-empty
    string), else the feed's title when that is present, else the string
    "Unknown", and the top-level title is the feed's title. When the
    listing is computed, not replayed, the feed is the one the parser
    resolved with for this request. *)
Theorem C10_author_fallback c now req p r title author episodes :
  cache_ok c ->
  response (episodes_route c now req p) = Some r ->
  body r = EpisodesBody title author episodes ->
  exists feed,
    title = feed_title feed
    /\ author = Spec.author (chain (feed_itunes feed) fi_author) (feed_title feed)
    /\ (x_cache r = Some "MISS" ->
        exists url after,
          fetch_url req = Some url
          /\ p url = Settles after (Resolve (Some feed))
          /\ (after < TIMEOUT_MS)%N).
Proof.
  intros Hc Hr Hb. unfold episodes_route in Hr.
  destruct (cache_get_ok c now (keyBuilder req) Hc) as [_ Hhit].
  destruct (cache_get c now (keyBuilder req)) as [[hit|] c1]; simpl in *.
  - injection Hr as <-. simpl in *. subst hit.
    destruct (Hhit _ eq_refl) as (_ & _ & feed & Ht & Ha).
    exists feed. repeat split; trivial. discriminate.
  - destruct (handled_reply (episodes_handler (query_feedUrl req) p)) as [r0|] eqn:Hr0;
      simpl in Hr; [|discriminate].
    injection Hr as <-. simpl in Hb.
    destruct (handler_listing _ _ _ _ _ _ Hr0 Hb)
      as (url & after & feed & Hurl & Hp & Hafter & -> & -> & _).
    exists feed. split; [reflexivity|]. split; [apply author_of_spec|].
    intros _. now exists url, after.
Qed.

Lemma C10_author_fallback_witness :
  exists feed,
    JStr "Show" = feed_title feed
    /\ "Host" = Spec.author (chain (feed_itunes feed) fi_author) (feed_title feed)
    /\ (Some "MISS" = Some "MISS" ->
        exists url after,
          fetch_url (req_of "http://pod.example/rss") = Some url
          /\ always (Settles 40 (Resolve (Some artwork_feed))) url
             = Settles after (Resolve (Some feed))
          /\ (after < TIMEOUT_MS)%N).
Proof.
  refine (C10_author_fallback ∅ 0 (req_of "http://pod.example/rss")
            (always (Settles 40 (Resolve (Some artwork_feed))))
            (computed 200 (Some "public, max-age=60")
               (EpisodesBody (JStr "Show") "Host"
                  (episodes_of artwork_feed (items_of artwork_feed))))
            (JStr "Show") "Host"
            (episodes_of artwork_feed (items_of artwork_feed)) _ _ _).
  - exact cache_ok_empty.
  - reflexivity.
  - reflexivity.
Defined.

(** ** The cache middleware *)

(** Whatever body the handler sends is stored under the request's key,
    to be served for [stdTTL] seconds from the time of the answer. *)
Lemma route_stores_every_body c now req p r :
  miss c now req ->
  response (episodes_route c now req p) = Some r ->
  cache_after (episodes_route c now req p) !! keyBuilder req
  = Some {| entry_v := body r;
            entry_t := now
                       + Z.of_N (handled_elapsed (episodes_handler (query_feedUrl req) p))
                       + stdTTL * 1000 |}.
Proof.
  unfold miss, episodes_route. intros Hmiss.
  destruct (cache_get c now (keyBuilder req)) as [hit c1]. simpl in Hmiss.
  subst hit.
  destruct (handled_reply (episodes_handler (query_feedUrl req) p)) as [r0|];
    simpl; [|discriminate].
  intros [= <-]. simpl. unfold cache_set. apply lookup_insert_eq.
Qed.


(** A request that fails validation makes no call to the parser. *)
Lemma invalid_input_never_fetches c now req p :
  fetch_url req = None -> fetched (episodes_route c now req p) = [].
Proof.
  unfold fetch_url, episodes_route, episodes_handler. intros H.
  destruct (cache_get c now (keyBuilder req)) as [[hit|] c1]; [reflexivity|].
  destruct (truthy (query_feedUrl req)); simpl; [|reflexivity].
  destruct (decodeURIComponent _) as [d|]; simpl; [|reflexivity].
  destruct (is_http_url (trim d)); simpl; [discriminate|reflexivity].
Qed.

(** When the cache serves nothing, a missing or empty [feedUrl] is
    answered with status 400. *)
Lemma missing_feedUrl_on_miss c now req p :
  miss c now req ->
  truthy (query_feedUrl req) = false ->
  response (episodes_route c now req p)
  = Some (computed 400 None (ErrorBody "Missing feedUrl")).
Proof.
  unfold miss, episodes_route, episodes_handler. intros Hmiss Hraw.
  destruct (cache_get c now (keyBuilder req)) as [hit c1]. simpl in Hmiss.
  subst hit. rewrite Hraw. reflexivity.
Qed.

(** When the cache serves nothing, a [feedUrl] whose decoded and trimmed
    form lacks the scheme is answered with status 400. *)
Lemma invalid_scheme_on_miss c now req p decoded :
  miss c now req ->
  truthy (query_feedUrl req) = true ->
  decodeURIComponent (template (query_feedUrl req)) = Some decoded ->
  is_http_url (trim decoded) = false ->
  response (episodes_route c now req p)
  = Some (computed 400 None (ErrorBody "Invalid feed URL")).
Proof.
  unfold miss, episodes_route, episodes_handler. intros Hmiss Hraw Hd Hs.
  destruct (cache_get c now (keyBuilder req)) as [hit c1]. simpl in Hmiss.
  subst hit. rewrite Hraw, Hd, Hs. reflexivity.
Qed.




(** C5, on the code. A fetch that fails is answered with status 404 from
    the [catch] branch, and [cacheMW] stores that body like any other:
    one second later the same request is answered from the cache, with
    status 200 and the error body, and the parser is not called although
    the feed has become available. *)
Theorem C5_failed_fetch_is_memoized :
  let req := req_of "http://pod.example/rss" in
  let o := two_requests ∅ 0 req (always (Settles 40 (Reject "socket hang up")))
                        1000 req
                        (always (Settles 40 (Resolve (Some (feed_of three_items))))) in
  response o.1 = Some (failure_response "socket hang up")
  /\ cache_after o.1 !! keyBuilder req
     = Some {| entry_v := ErrorDetailsBody "Feed not found or unavailable"
                            "socket hang up";
               entry_t := 120040 |}
  /\ response o.2
     = Some (replayed (ErrorDetailsBody "Feed not found or unavailable"
                         "socket hang up"))
  /\ fetched o.2 = [].
Proof. repeat split; reflexivity. Qed.

(** C6, on the code. The first request without [feedUrl] is answered
    with status 400 and no call to the parser; [cacheMW] stores its body
    under the key "episodes:undefined", and one second later the same
    request is answered from the cache with status 200. The same happens
    to a [feedUrl] with another scheme. *)
Theorem C6_validation_error_replayed_as_200 :
  let o := two_requests ∅ 0 no_feedUrl (always Pending)
                        1000 no_feedUrl (always Pending) in
  let o' := two_requests ∅ 0 (req_of "ftp://x") (always Pending)
                         1000 (req_of "ftp://x") (always Pending) in
  response o.1 = Some (computed 400 None (ErrorBody "Missing feedUrl"))
  /\ keyBuilder no_feedUrl = "episodes:undefined"
  /\ response o.2 = Some (replayed (ErrorBody "Missing feedUrl"))
  /\ (status <$> response o.2) = Some 200
  /\ fetched o.1 = [] /\ fetched o.2 = []
  /\ response o'.1 = Some (computed 400 None (ErrorBody "Invalid feed URL"))
  /\ response o'.2 = Some (replayed (ErrorBody "Invalid feed URL"))
  /\ fetched o'.1 = [] /\ fetched o'.2 = [].
Proof. repeat split; reflexivity. Qed.

(** * Further properties of the two server files *)

(** ** The route of [Server_backup.cjs] *)

Lemma handler_cases raw p :
  (truthy raw = false
   /\ episodes_handler raw p = answered (reply_error 400 (ErrorBody "Missing feedUrl")))
  \/ (exists s, raw = JStr s /\ s <> "" /\ decodeURIComponent s = None
      /\ episodes_handler raw p
         = {| handled_reply := None; handled_elapsed := 0; handled_fetched := [] |})
  \/ (exists s d, raw = JStr s /\ s <> "" /\ decodeURIComponent s = Some d
      /\ is_http_url (trim d) = false
      /\ episodes_handler raw p = answered (reply_error 400 (ErrorBody "Invalid feed URL")))
  \/ (exists s d, raw = JStr s /\ s <> "" /\ decodeURIComponent s = Some d
      /\ is_http_url (trim d) = true
      /\ episodes_handler raw p
         = {| handled_reply := Some (render (race (p (trim d))).2);
              handled_elapsed := (race (p (trim d))).1;
              handled_fetched := [trim d] |}).
Proof.
  unfold episodes_handler. destruct (truthy raw) eqn:Hraw; [|left; split; reflexivity].
  right. destruct raw as [| |s]; try discriminate. apply truthy_JStr in Hraw.
  simpl. destruct (decodeURIComponent s) as [d|] eqn:Hd.
  - right. destruct (is_http_url (trim d)) eqn:Hs; simpl.
    + right. exists s, d. destruct (race (p (trim d))). repeat split; trivial.
    + left. exists s, d. repeat split; trivial.
  - left. exists s. repeat split; trivial.
Qed.

(** X1. The parser is only ever called for a request that the cache does
    not serve, once, and with the decoded and trimmed query value, which
    starts with [http://] or [https://] in any letter case. *)
Theorem route_fetches_only_validated_url c now req p url :
  In url (fetched (episodes_route c now req p)) ->
  exists raw decoded,
    query_feedUrl req = JStr raw
    /\ decodeURIComponent raw = Some decoded
    /\ url = trim decoded
    /\ is_http_url url = true
    /\ fetched (episodes_route c now req p) = [url]
    /\ miss c now req.
Proof.
  unfold episodes_route, miss.
  destruct (cache_get c now (keyBuilder req)) as [[hit|] c1]; simpl; [tauto|].
  destruct (handler_cases (query_feedUrl req) p)
    as [[_ ->] | [(s & _ & _ & _ & ->) | [(s & d & _ & _ & _ & _ & ->)
                                          | (s & d & Hraw & _ & Hd & Hs & ->)]]];
    simpl; try tauto.
  intros [<- | []]. exists s, d. repeat split; trivial.
Qed.

Lemma route_fetches_only_validated_url_witness :
  exists raw decoded,
    query_feedUrl (req_of " HTTP://pod.example/a%20b ") = JStr raw
    /\ decodeURIComponent raw = Some decoded
    /\ "HTTP://pod.example/a b" = trim decoded
    /\ is_http_url "HTTP://pod.example/a b" = true
    /\ fetched (episodes_route ∅ 0 (req_of " HTTP://pod.example/a%20b ") (always Pending))
       = ["HTTP://pod.example/a b"]
    /\ miss ∅ 0 (req_of " HTTP://pod.example/a%20b ").
Proof.
  apply (route_fetches_only_validated_url ∅ 0
           (req_of " HTTP://pod.example/a%20b ") (always Pending)).
  simpl. left. reflexivity.
Defined.

Lemma cache_get_miss_lookup c now key c1 :
  cache_get c now key = (None, c1) -> c1 !! key = None.
Proof.
  unfold cache_get. destruct (c !! key) as [e|] eqn:He.
  - destruct (expired e now); [|discriminate].
    intros [= <-]. apply lookup_delete_eq.
  - intros [= <-]. exact He.
Qed.

(** X2. The code of the route sends no response exactly when the cache
    serves nothing and the query value is a non-empty string with a
    malformed percent escape: [decodeURIComponent] throws outside the
    [try] block. Nothing is fetched and nothing is stored then. *)
Theorem route_silent_iff_malformed_escape c now req p :
  (response (episodes_route c now req p) = None
   <-> miss c now req
       /\ exists raw, query_feedUrl req = JStr raw /\ raw <> ""
                      /\ decodeURIComponent raw = None)
  /\ (response (episodes_route c now req p) = None ->
      fetched (episodes_route c now req p) = []
      /\ cache_after (episodes_route c now req p) !! keyBuilder req = None).
Proof.
  unfold episodes_route, miss.
  destruct (cache_get c now (keyBuilder req)) as [[hit|] c1] eqn:Hget; simpl.
  { split; [split|]; try discriminate. intros [H _]. discriminate H. }
  pose proof (cache_get_miss_lookup _ _ _ _ Hget) as Hc1.
  destruct (handler_cases (query_feedUrl req) p)
    as [[Hf ->] | [(s & Hraw & Hs & Hd & ->) | [(s & d & Hraw & Hs & Hd & _ & ->)
                                              | (s & d & Hraw & Hs & Hd & _ & ->)]]];
    simpl.
  - split; [split|]; try discriminate.
    intros [_ (raw & Hr & Hne & _)]. rewrite Hr in Hf.
    apply truthy_JStr in Hne. congruence.
  - split; [split|]; auto. intros _. split; [reflexivity|]. exists s. auto.
  - split; [split|]; try discriminate.
    intros [_ (raw & Hr & _ & Hn)]. congruence.
  - split; [split|]; try discriminate.
    intros [_ (raw & Hr & _ & Hn)]. congruence.
Qed.

(** X3. Every response of the route is of one of these kinds: a replay
    (status 200, no [Cache-Control]); a computed listing with at least
    one episode (status 200, [Cache-Control: public, max-age=60]); a
    validation error (status 400); one of the three not-found answers
    (status 404). A computed response has status 200 only with a
    listing, and no response has a 5xx status. *)
Theorem route_status_codes c now req p r :
  response (episodes_route c now req p) = Some r ->
  (x_cache r = Some "HIT" /\ status r = 200 /\ cache_control r = None)
  \/ (x_cache r = Some "MISS"
      /\ ((status r = 200 /\ cache_control r = Some "public, max-age=60"
           /\ exists title author episodes,
                body r = EpisodesBody title author episodes /\ episodes <> [])
          \/ (status r = 400 /\ cache_control r = None
              /\ (body r = ErrorBody "Missing feedUrl"
                  \/ body r = ErrorBody "Invalid feed URL"))
          \/ (status r = 404 /\ cache_control r = None
              /\ (body r = ErrorBody "No episodes found"
                  \/ body r = ErrorBody "No playable media in feed"
                  \/ exists message,
                       body r = ErrorDetailsBody "Feed not found or unavailable"
                                  message)))).
Proof.
  unfold episodes_route.
  destruct (cache_get c now (keyBuilder req)) as [[hit|] c1]; cbn [fst snd].
  { intros [= <-]. left. repeat split. }
  destruct (handler_cases (query_feedUrl req) p)
    as [[_ ->] | [(s & _ & _ & _ & ->) | [(s & d & _ & _ & _ & _ & ->)
                                          | (s & d & _ & _ & _ & _ & ->)]]];
    simpl; try discriminate.
  - intros [= <-]. right. split; [reflexivity|]. right. left. simpl. auto.
  - intros [= <-]. right. split; [reflexivity|]. right. left. simpl. auto.
  - intros [= <-]. right. split; [reflexivity|]. simpl.
    destruct (race (p (trim d))) as [e [[f|]|m]]; simpl.
    + destruct (feed_items f) as [[|it l]|]; simpl;
        try (right; right; repeat split; auto; fail).
      destruct (episodes_of f (it :: l)) as [|ep eps]; simpl.
      * right; right; repeat split; auto.
      * left. repeat split. eexists _, _, _. split; [reflexivity|discriminate].
    + right; right; repeat split; auto.
    + right; right; repeat split. right. right. eauto.
Qed.

Lemma route_status_codes_witness :
  let r := computed 404 None (ErrorBody "No playable media in feed") in
  (x_cache r = Some "HIT" /\ status r = 200 /\ cache_control r = None)
  \/ (x_cache r = Some "MISS"
      /\ ((status r = 200 /\ cache_control r = Some "public, max-age=60"
           /\ exists title author episodes,
                body r = EpisodesBody title author episodes /\ episodes <> [])
          \/ (status r = 400 /\ cache_control r = None
              /\ (body r = ErrorBody "Missing feedUrl"
                  \/ body r = ErrorBody "Invalid feed URL"))
          \/ (status r = 404 /\ cache_control r = None
              /\ (body r = ErrorBody "No episodes found"
                  \/ body r = ErrorBody "No playable media in feed"
                  \/ exists message,
                       body r = ErrorDetailsBody "Feed not found or unavailable"
                                  message)))).
Proof.
  intros r.
  apply (route_status_codes ∅ 0 (req_of "http://pod.example/rss")
           (always (Settles 40 (Resolve (Some (feed_of [silent]))))) r).
  reflexivity.
Defined.

(** X4. Cache expiry. When the handler has answered a request at a
    non-negative time, the same request arriving after the 120 seconds
    that follow the answer is computed afresh: the parser is called
    again and the response is the one of the new outcome. *)
Theorem expired_entry_is_refetched
    c now1 now2 req (p1 p2 : string -> ParseOutcome) url :
  miss c now1 req ->
  fetch_url req = Some url ->
  0 <= now1 ->
  now1 + Z.of_N (race (p1 url)).1 + stdTTL * 1000 < now2 ->
  let r := render (race (p2 url)).2 in
  response (two_requests c now1 req p1 now2 req p2).2
  = Some (computed (reply_status r) (reply_cache_control r) (reply_body r))
  /\ fetched (two_requests c now1 req p1 now2 req p2).2 = [url].
Proof.
  intros Hmiss Hurl Hnow Hlate. unfold two_requests. cbn [snd].
  apply route_computes; [|exact Hurl].
  destruct (route_computes c now1 req p1 url Hmiss Hurl) as [Hr1 _].
  pose proof (route_stores_every_body c now1 req p1 _ Hmiss Hr1) as Hstored.
  rewrite (handler_fetches _ p1 _ Hurl) in Hstored. cbn [handled_elapsed] in Hstored.
  unfold miss, cache_get. rewrite Hstored. unfold expired. cbn [entry_t].
  replace (_ =? 0) with false by (symmetry; apply Z.eqb_neq; unfold stdTTL; lia).
  replace (_ <? now2) with true by (symmetry; apply Z.ltb_lt; lia).
  reflexivity.
Qed.

Lemma expired_entry_is_refetched_witness :
  fetched (two_requests ∅ 0 (req_of "http://pod.example/rss")
             (always (Settles 40 (Resolve (Some (feed_of three_items)))))
             120041 (req_of "http://pod.example/rss") (always Pending)).2
  = ["http://pod.example/rss"].
Proof.
  refine (proj2 (expired_entry_is_refetched ∅ 0 120041
                   (req_of "http://pod.example/rss")
                   (always (Settles 40 (Resolve (Some (feed_of three_items)))))
                   (always Pending) "http://pod.example/rss" _ _ _ _)).
  - reflexivity.
  - reflexivity.
  - lia.
  - vm_compute. reflexivity.
Defined.

(** X5. A request reads and writes the cache under its own key only:
    every other entry is left as it was. *)
Theorem route_touches_only_its_key c now req p key :
  key <> keyBuilder req ->
  cache_after (episodes_route c now req p) !! key = c !! key.
Proof.
  intros Hne. unfold episodes_route, cache_get.
  assert (Hdel : delete (keyBuilder req) c !! key = c !! key)
    by (apply lookup_delete_ne; congruence).
  assert (Hset : forall (c1 : gmap string Entry) t b,
             cache_set c1 t (keyBuilder req) b !! key = c1 !! key)
    by (intros; unfold cache_set; apply lookup_insert_ne; congruence).
  destruct (c !! keyBuilder req) as [e|]; [destruct (expired e now)|];
    cbn [fst snd]; try reflexivity;
    destruct (handled_reply (episodes_handler (query_feedUrl req) p));
    cbn [cache_after]; rewrite ?Hset; auto.
Qed.

Lemma route_touches_only_its_key_witness :
  cache_after (episodes_route
                 (cache_set ∅ 0 "episodes:http://other.example/rss"
                    (ErrorBody "No episodes found"))
                 5 (req_of "http://pod.example/rss") (always Pending))
    !! "episodes:http://other.example/rss"
  = cache_set ∅ 0 "episodes:http://other.example/rss"
      (ErrorBody "No episodes found") !! "episodes:http://other.example/rss".
Proof.
  apply route_touches_only_its_key. vm_compute. discriminate.
Defined.

Lemma race_elapsed_bound p : ((race p).1 <= TIMEOUT_MS)%N.
Proof.
  destruct p as [after s|]; simpl; [|reflexivity].
  destruct (after <? TIMEOUT_MS)%N eqn:H; simpl; [|reflexivity].
  apply N.ltb_lt in H. lia.
Qed.

Lemma handler_elapsed_bound raw p :
  (handled_elapsed (episodes_handler raw p) <= TIMEOUT_MS)%N.
Proof.
  destruct (handler_cases raw p)
    as [[_ ->] | [(s & _ & _ & _ & ->) | [(s & d & _ & _ & _ & _ & ->)
                                          | (s & d & _ & _ & _ & _ & ->)]]];
    cbn [handled_elapsed answered]; try (unfold TIMEOUT_MS; lia).
  apply race_elapsed_bound.
Qed.

Lemma cache_get_hit c now key b c1 :
  cache_get c now key = (Some b, c1) -> c1 = c.
Proof.
  unfold cache_get. destruct (c !! key) as [e|]; [|discriminate].
  destruct (expired e now); [discriminate|]. now intros [= _ <-].
Qed.

Lemma cache_get_keeps c now key o c1 key' e :
  cache_get c now key = (o, c1) -> c1 !! key' = Some e -> c !! key' = Some e.
Proof.
  unfold cache_get. destruct (c !! key) as [e0|]; [|now intros [= _ <-]].
  destruct (expired e0 now); [|now intros [= _ <-]].
  intros [= _ <-] H. apply lookup_delete_Some in H as [_ H]. exact H.
Qed.

(** X6. Bounded staleness. An entry found in the cache after a request
    either was there before, unchanged, or was stored by this request
    under its own key: it then holds the body just computed, to be
    served until a time between 120 and 129 seconds after the request
    arrived (120 seconds from the answer, which comes after 9 seconds at
    most). *)
Theorem stored_entries_expire_within_bound c now req p key e :
  cache_after (episodes_route c now req p) !! key = Some e ->
  c !! key = Some e
  \/ (key = keyBuilder req
      /\ (exists r, response (episodes_route c now req p) = Some r
                    /\ x_cache r = Some "MISS" /\ body r = entry_v e)
      /\ now + 120000 <= entry_t e <= now + 129000).
Proof.
  unfold episodes_route.
  pose proof (handler_elapsed_bound (query_feedUrl req) p) as Hb.
  destruct (cache_get c now (keyBuilder req)) as [[hit|] c1] eqn:Hget;
    cbn [cache_after response].
  - apply cache_get_hit in Hget as ->. now left.
  - destruct (handled_reply (episodes_handler (query_feedUrl req) p)) as [r|];
      cbn [cache_after response].
    + unfold cache_set. rewrite lookup_insert.
      destruct (decide (keyBuilder req = key)) as [<-|Hne].
      * intros [= <-]. right. split; [reflexivity|]. split.
        -- eexists. repeat split.
        -- cbn [entry_t]. unfold stdTTL, TIMEOUT_MS in *. lia.
      * intros H. left. exact (cache_get_keeps _ _ _ _ _ _ _ Hget H).
    + intros H. left. exact (cache_get_keeps _ _ _ _ _ _ _ Hget H).
Qed.

Lemma stored_entries_expire_within_bound_witness :
  (∅ : gmap string Entry) !! "episodes:http://pod.example/rss"
  = Some {| entry_v := ErrorDetailsBody "Feed not found or unavailable"
                         "Feed fetch timed out";
            entry_t := 129005 |}
  \/ ("episodes:http://pod.example/rss" = keyBuilder (req_of "http://pod.example/rss")
      /\ (exists r,
            response (episodes_route ∅ 5 (req_of "http://pod.example/rss")
                        (always Pending)) = Some r
            /\ x_cache r = Some "MISS"
            /\ body r = ErrorDetailsBody "Feed not found or unavailable"
                          "Feed fetch timed out")
      /\ 5 + 120000 <= 129005 <= 5 + 129000).
Proof.
  apply (stored_entries_expire_within_bound ∅ 5
           (req_of "http://pod.example/rss") (always Pending)
           "episodes:http://pod.example/rss"
           {| entry_v := ErrorDetailsBody "Feed not found or unavailable"
                           "Feed fetch timed out";
              entry_t := 129005 |}).
  reflexivity.
Defined.

(** X7. From an empty cache, and whatever requests arrive one after
    the other, every listing the route sends, computed or replayed, has
    at least one episode, none of its episodes has a null media URL, and
    its title and author are those of a feed under the author rule. *)
Theorem every_listing_sent_is_sound trace :
  Forall (fun o => forall r, response o = Some r -> body_ok (body r))
         (serve ∅ trace).
Proof.
  generalize cache_ok_empty. generalize (∅ : gmap string Entry) as c.
  induction trace as [|a rest IH]; intros c Hc; [constructor|].
  cbn [serve].
  destruct (route_sound c (at_time a) (at_request a) (at_parser a) Hc) as [Hc' Hr].
  constructor; [exact Hr|apply IH; exact Hc'].
Qed.

(** ** The episode record *)

Lemma or_null_shape a : null_or_text (JS.or a JNull).
Proof.
  rewrite or_null. destruct (first_truthy_cases [a]) as [-> | H]; [now left|now right].
Qed.

(** X8. In an episode built by either route, each of [guid], [pubDate],
    [link], [mediaUrl], [mediaType], [image] and [duration] is null or a
    non-empty string: none is ever [undefined] or the empty string. *)
Theorem episode_fields_null_or_text feed item :
  Forall null_or_text (nullable_fields (episode_of_item feed item))
  /\ Forall null_or_text (nullable_fields (variant_episode_of_item feed item)).
Proof.
  split; unfold nullable_fields;
    repeat (apply List.Forall_cons; [apply or_null_shape|]); apply List.Forall_nil.
Qed.

(** ** The variant route *)

Lemma or_null_truthy a : truthy (JS.or a JNull) = truthy a.
Proof. unfold JS.or. destruct (truthy a) eqn:H; [exact H|reflexivity]. Qed.

Lemma variant_playable feed item :
  playable (variant_episode_of_item feed item) = has_enclosure_url item.
Proof. apply or_null_truthy. Qed.

Lemma variant_episodes_of_filter feed items :
  variant_episodes_of feed items
  = List.map (variant_episode_of_item feed) (List.filter has_enclosure_url items).
Proof.
  unfold variant_episodes_of. rewrite filter_map_comm.
  f_equal. induction items as [|it r IH]; [reflexivity|].
  cbn [List.filter]. rewrite variant_playable, IH. reflexivity.
Qed.

(** X9. The variant route passes the query value to the parser as it
    came (not decoded, not trimmed, whatever its scheme), and every
    failure gets the same answer: status 500 with the error "Failed to
    fetch episodes", whether the parser rejected (its message is not
    disclosed), resolved without a feed or without an item list, or no
    item has an enclosure with a URL. *)
Theorem variant_failures_are_uniform req (p : string -> ParseOutcome) raw after s :
  query_feedUrl req = JStr raw ->
  raw <> "" ->
  p raw = Settles after s ->
  (exists message, s = Reject message)
  \/ s = Resolve None
  \/ (exists feed, s = Resolve (Some feed)
        /\ Forall (fun it => has_enclosure_url it = false) (items_of feed)) ->
  variant_episodes_route req p
  = {| variant_response := Some (500, VariantError "Failed to fetch episodes");
       variant_fetched := [raw] |}.
Proof.
  intros Hraw Hne Hp Hs. unfold variant_episodes_route.
  rewrite Hraw. apply truthy_JStr in Hne. rewrite Hne. cbn [negb template].
  rewrite Hp. f_equal. f_equal.
  destruct Hs as [[m ->] | [-> | (feed & -> & Hall)]]; try reflexivity.
  unfold variant_render, items_of in *.
  destruct (feed_items feed) as [items|]; [|reflexivity].
  rewrite variant_episodes_of_filter, (filter_none _ _ Hall). reflexivity.
Qed.

Lemma variant_failures_are_uniform_witness :
  variant_episodes_route (req_of " ftp://x")
    (always (Settles 3 (Reject "Unsupported protocol")))
  = {| variant_response := Some (500, VariantError "Failed to fetch episodes");
       variant_fetched := [" ftp://x"] |}.
Proof.
  apply (variant_failures_are_uniform (req_of " ftp://x")
           (always (Settles 3 (Reject "Unsupported protocol")))
           " ftp://x" 3 (Reject "Unsupported protocol")).
  - reflexivity.
  - discriminate.
  - reflexivity.
  - left. exists "Unsupported protocol". reflexivity.
Defined.

(** X10. When the parser resolves with a feed of which at least one item
    has an enclosure with a non-empty URL, the variant route answers 200
    with the episodes of exactly those items, in the order of the
    document; media-content entries do not make an item playable
    there. *)
Theorem variant_lists_enclosure_items
    req (p : string -> ParseOutcome) raw after feed items :
  query_feedUrl req = JStr raw ->
  raw <> "" ->
  p raw = Settles after (Resolve (Some feed)) ->
  feed_items feed = Some items ->
  Exists (fun it => has_enclosure_url it = true) items ->
  variant_response (variant_episodes_route req p)
  = Some (200, VariantEpisodes
                 (List.map (variant_episode_of_item feed)
                    (List.filter has_enclosure_url items)))
  /\ Forall (fun ep => exists u, u <> "" /\ ep_mediaUrl ep = JStr u)
       (List.map (variant_episode_of_item feed)
          (List.filter has_enclosure_url items)).
Proof.
  intros Hraw Hne Hp Hitems Hex. split.
  - unfold variant_episodes_route.
    rewrite Hraw. apply truthy_JStr in Hne. rewrite Hne. cbn [negb template].
    rewrite Hp. cbn [variant_response variant_render]. rewrite Hitems.
    rewrite variant_episodes_of_filter.
    pose proof (filter_some _ _ Hex) as Hsome.
    destruct (List.filter has_enclosure_url items); [now destruct Hsome|reflexivity].
  - apply List.Forall_forall. intros ep Hin.
    apply List.in_map_iff in Hin as (it & <- & Hit).
    apply List.filter_In in Hit as [_ Hit]. unfold has_enclosure_url in Hit.
    cbn [ep_mediaUrl variant_episode_of_item]. unfold JS.or. rewrite Hit.
    destruct (chain (item_enclosure it) enc_url) as [| |u]; try discriminate.
    exists u. split; [now apply truthy_JStr|reflexivity].
Qed.

Lemma variant_lists_enclosure_items_witness :
  variant_response
    (variant_episodes_route (req_of "http://pod.example/rss")
       (always (Settles 40 (Resolve (Some (feed_of [untyped_enclosure; silent]))))))
  = Some (200, VariantEpisodes
                 [variant_episode_of_item (feed_of [untyped_enclosure; silent])
                    untyped_enclosure]).
Proof.
  refine (proj1 (variant_lists_enclosure_items
                   (req_of "http://pod.example/rss")
                   (always (Settles 40 (Resolve (Some (feed_of [untyped_enclosure; silent])))))
                   "http://pod.example/rss" 40
                   (feed_of [untyped_enclosure; silent]) [untyped_enclosure; silent]
                   _ _ _ _ _)).
  - reflexivity.
  - discriminate.
  - reflexivity.
  - reflexivity.
  - apply Exists_cons_hd. reflexivity.
Defined.

(** X11. On the same feed, the media URLs the variant route lists are a
    subsequence of those the route of [Server_backup.cjs] lists: an item
    the variant keeps is kept by the other with the same media URL, and
    the other may list more (items that only have a media-content
    entry). *)
Theorem variant_lists_no_more_than_backup feed items :
  sublist (List.map ep_mediaUrl (variant_episodes_of feed items))
          (List.map ep_mediaUrl (episodes_of feed items)).
Proof.
  rewrite variant_episodes_of_filter, episodes_of_filter.
  induction items as [|it r IH]; [constructor|].
  cbn [List.filter]. unfold has_enclosure_url at 1. unfold has_media at 1.
  cbn [ep_mediaUrl episode_of_item]. rewrite mediaUrl_of_chain.
  cbn [first_truthy].
  destruct (truthy (chain (item_enclosure it) enc_url)) eqn:Henc.
  - destruct (chain (item_enclosure it) enc_url) as [| |u] eqn:Hu; try discriminate.
    cbn [Spec.non_null List.map ep_mediaUrl variant_episode_of_item episode_of_item].
    rewrite mediaUrl_of_chain, Hu. cbn [first_truthy]. unfold JS.or. rewrite Henc.
    now apply sublist_skip.
  - destruct (Spec.non_null _); [|exact IH].
    cbn [List.map]. now apply sublist_cons.
Qed.

(** ** Caching helpers: [cachedRoute] and [fetchPodcastIndex] *)

Lemma nc_get_set_live {V} ttl (c : gmap string (Stored V)) now now' key v :
  now' <= now + ttl * 1000 ->
  nc_get (nc_set ttl c now key v) now' key = (Some v, nc_set ttl c now key v).
Proof.
  intros Hlive. unfold nc_get, nc_set. rewrite lookup_insert_eq.
  unfold stored_expired. cbn [stored_t stored_v].
  replace (_ <? now') with false by (symmetry; apply Z.ltb_ge; lia).
  rewrite andb_false_r. reflexivity.
Qed.

Lemma served_set_live {V} (is_truthy : V -> bool) ttl
    (c : gmap string (Stored V)) now now' key v :
  is_truthy v = true ->
  now' <= now + ttl * 1000 ->
  served is_truthy (nc_set ttl c now key v) now' key
  = (Some v, nc_set ttl c now key v).
Proof.
  intros Hv Hlive. unfold served. rewrite (nc_get_set_live _ _ _ _ _ _ Hlive).
  rewrite Hv. reflexivity.
Qed.

(** Once nothing is served for a key, nothing is served for it later
    either, as long as nothing is stored. *)
Lemma served_nothing_later {V} (is_truthy : V -> bool)
    (c : gmap string (Stored V)) now now' key :
  (served is_truthy c now key).1 = None ->
  (served is_truthy (served is_truthy c now key).2 now' key).1 = None.
Proof.
  unfold served, nc_get. destruct (c !! key) as [e|] eqn:He.
  - destruct (stored_expired e now) eqn:Hexp; cbn [fst snd].
    + intros _. rewrite lookup_delete_eq. reflexivity.
    + destruct (is_truthy (stored_v e)) eqn:Hv; cbn [fst snd]; [discriminate|].
      intros _. rewrite He.
      destruct (stored_expired e now'); cbn [fst]; [reflexivity|].
      rewrite Hv. reflexivity.
  - cbn [fst snd]. intros _. rewrite He. reflexivity.
Qed.

Lemma cachedRoute_computes {Data} (is_truthy : Data -> bool)
    (c : gmap string (Stored Data)) now key handler :
  (served is_truthy c now key).1 = None ->
  cachedRoute is_truthy c now key handler
  = match handler with
    | Returns after data =>
        {| cached_response := Some (200, DataBody data);
           cached_cache :=
             nc_set variant_stdTTL (served is_truthy c now key).2
               (now + Z.of_N after) key data;
           cached_ran := true |}
    | Throws _ message =>
        {| cached_response := Some (500, MessageBody message);
           cached_cache := (served is_truthy c now key).2; cached_ran := true |}
    | Hangs =>
        {| cached_response := None;
           cached_cache := (served is_truthy c now key).2; cached_ran := true |}
    end.
Proof.
  unfold cachedRoute. destruct (served is_truthy c now key) as [hit c1].
  cbn [fst snd]. intros ->. reflexivity.
Qed.

(** X12. [cachedRoute] does not memoize failures: when the wrapped
    handler throws, the answer is status 500 with the message of the
    error, nothing is stored, and a later request with the same key, at
    whatever time, calls the handler again. *)
Theorem cachedRoute_failure_not_stored
    {Data : Type} (is_truthy : Data -> bool)
    (c : gmap string (Stored Data)) now key after message :
  (served is_truthy c now key).1 = None ->
  let o := cachedRoute is_truthy c now key (Throws after message) in
  cached_response o = Some (500, MessageBody message)
  /\ cached_cache o = (served is_truthy c now key).2
  /\ forall now' handler',
       cached_ran (cachedRoute is_truthy (cached_cache o) now' key handler') = true.
Proof.
  intros Hmiss o. subst o. rewrite (cachedRoute_computes _ _ _ _ _ Hmiss).
  cbn [cached_response cached_cache]. repeat split.
  intros now' handler'.
  rewrite (cachedRoute_computes _ _ _ _ handler'
             (served_nothing_later is_truthy c now now' key Hmiss)).
  destruct handler'; reflexivity.
Qed.

Lemma cachedRoute_failure_not_stored_witness :
  cached_response
    (cachedRoute (fun d : string => negb (String.eqb d "")) ∅ 0 "trending"
       (Throws 12 "Request failed with status code 401"))
  = Some (500, MessageBody "Request failed with status code 401").
Proof.
  refine (proj1 (cachedRoute_failure_not_stored
                   (fun d : string => negb (String.eqb d "")) ∅ 0 "trending" 12
                   "Request failed with status code 401" _)).
  reflexivity.
Defined.

(** X13. [cachedRoute] memoizes results: when the wrapped handler
    returns a truthy value, that value is the answer and, for 90 seconds
    from the time it was returned, every request with the same key gets
    the same value with status 200 without the handler being called. *)
Theorem cachedRoute_replays_result
    {Data : Type} (is_truthy : Data -> bool)
    (c : gmap string (Stored Data)) now now' key after data handler' :
  (served is_truthy c now key).1 = None ->
  is_truthy data = true ->
  now' <= now + Z.of_N after + variant_stdTTL * 1000 ->
  let o := cachedRoute is_truthy c now key (Returns after data) in
  cached_response o = Some (200, DataBody data)
  /\ cachedRoute is_truthy (cached_cache o) now' key handler'
     = {| cached_response := Some (200, DataBody data);
          cached_cache := cached_cache o;
          cached_ran := false |}.
Proof.
  intros Hmiss Hdata Hlive o. subst o. rewrite (cachedRoute_computes _ _ _ _ _ Hmiss).
  cbn [cached_response cached_cache]. split; [reflexivity|].
  unfold cachedRoute. rewrite (served_set_live _ _ _ _ _ _ _ Hdata Hlive).
  reflexivity.
Qed.

Lemma cachedRoute_replays_result_witness :
  cachedRoute (fun d : string => negb (String.eqb d ""))
    (cached_cache (cachedRoute (fun d : string => negb (String.eqb d "")) ∅ 0
                     "search:news" (Returns 250 "{feeds}")))
    90250 "search:news" (Throws 1 "down")
  = {| cached_response := Some (200, DataBody "{feeds}");
       cached_cache :=
         cached_cache (cachedRoute (fun d : string => negb (String.eqb d "")) ∅ 0
                         "search:news" (Returns 250 "{feeds}"));
       cached_ran := false |}.
Proof.
  refine (proj2 (cachedRoute_replays_result
                   (fun d : string => negb (String.eqb d "")) ∅ 0 90250
                   "search:news" 250 "{feeds}" (Throws 1 "down") _ _ _)).
  - reflexivity.
  - reflexivity.
  - vm_compute. discriminate.
Defined.

(** *** [getAuthHeaders] and [fetchPodcastIndex] *)

Lemma getAuthHeaders_inr sha1_hex API_KEY API_SECRET now h :
  getAuthHeaders sha1_hex API_KEY API_SECRET now = inr h ->
  exists k s,
    API_KEY = JStr k /\ API_SECRET = JStr s /\ trim k <> "" /\ trim s <> ""
    /\ h = {| user_agent := "Pods/1.0 (+https://podstudio.ca)";
              x_auth_date := decimal (now / 1000);
              x_auth_key := trim k;
              authorization := sha1_hex (trim k +:+ trim s +:+ decimal (now / 1000)) |}.
Proof.
  unfold getAuthHeaders.
  destruct (truthy (trim_opt API_KEY)) eqn:Hk; [|discriminate].
  destruct (truthy (trim_opt API_SECRET)) eqn:Hs; [|discriminate].
  destruct API_KEY as [| |k]; try discriminate.
  destruct API_SECRET as [| |s]; try discriminate.
  cbn [negb orb trim_opt template]. intros [= <-].
  exists k, s. cbn [trim_opt] in Hk, Hs. apply truthy_JStr in Hk, Hs.
  repeat split; trivial.
Qed.

(** X14. [getAuthHeaders] returns headers exactly when both credentials
    hold something else than white space; it then sends the trimmed key,
    the time in whole seconds, and a digest computed over that very key,
    the trimmed secret and that very date. Otherwise it throws "Missing
    PodcastIndex API credentials". *)
Theorem getAuthHeaders_signs_what_it_sends sha1_hex API_KEY API_SECRET now :
  match getAuthHeaders sha1_hex API_KEY API_SECRET now with
  | inr h =>
      exists k s,
        API_KEY = JStr k /\ API_SECRET = JStr s
        /\ x_auth_key h = trim k /\ x_auth_key h <> "" /\ trim s <> ""
        /\ x_auth_date h = decimal (now / 1000)
        /\ authorization h
           = sha1_hex (x_auth_key h +:+ trim s +:+ x_auth_date h)
  | inl message =>
      message = "Missing PodcastIndex API credentials"
      /\ (truthy (trim_opt API_KEY) = false \/ truthy (trim_opt API_SECRET) = false)
  end.
Proof.
  destruct (getAuthHeaders sha1_hex API_KEY API_SECRET now) as [m|h] eqn:Hg.
  - unfold getAuthHeaders in Hg.
    destruct (truthy (trim_opt API_KEY)); [|injection Hg as <-; auto].
    destruct (truthy (trim_opt API_SECRET)); [discriminate|injection Hg as <-; auto].
  - apply getAuthHeaders_inr in Hg as (k & s & -> & -> & Hk & Hs & ->).
    exists k, s. cbn [x_auth_key x_auth_date authorization]. repeat split; trivial.
Qed.

Lemma fetchPodcastIndex_computes {Data} (is_truthy : Data -> bool) sha1_hex
    API_KEY API_SECRET axios_get (c : gmap string (Stored Data)) now endpoint params :
  (served is_truthy c now (podcastindex_url endpoint params)).1 = None ->
  fetchPodcastIndex is_truthy sha1_hex API_KEY API_SECRET axios_get c now endpoint params
  = let url := podcastindex_url endpoint params in
    let c1 := (served is_truthy c now url).2 in
    match getAuthHeaders sha1_hex API_KEY API_SECRET now with
    | inl message =>
        {| index_result := Some (inl message); index_cache := c1;
           index_requests := [] |}
    | inr headers =>
        match axios_get url headers with
        | Returns after data =>
            {| index_result := Some (inr data);
               index_cache := nc_set stdTTL c1 (now + Z.of_N after) url data;
               index_requests := [url] |}
        | Throws _ message =>
            {| index_result := Some (inl message); index_cache := c1;
               index_requests := [url] |}
        | Hangs =>
            {| index_result := None; index_cache := c1; index_requests := [url] |}
        end
    end.
Proof.
  unfold fetchPodcastIndex.
  destruct (served is_truthy c now (podcastindex_url endpoint params)) as [hit c1].
  cbn [fst snd]. intros ->. reflexivity.
Qed.

(** X15. Without usable credentials [fetchPodcastIndex] fails with
    "Missing PodcastIndex API credentials" before any request is made,
    and stores nothing: unless the cache serves the URL. *)
Theorem fetchPodcastIndex_needs_credentials
    {Data : Type} (is_truthy : Data -> bool) sha1_hex API_KEY API_SECRET
    axios_get (c : gmap string (Stored Data)) now endpoint params :
  (served is_truthy c now (podcastindex_url endpoint params)).1 = None ->
  truthy (trim_opt API_KEY) = false \/ truthy (trim_opt API_SECRET) = false ->
  fetchPodcastIndex is_truthy sha1_hex API_KEY API_SECRET axios_get c now endpoint params
  = {| index_result := Some (inl "Missing PodcastIndex API credentials");
       index_cache := (served is_truthy c now (podcastindex_url endpoint params)).2;
       index_requests := [] |}.
Proof.
  intros Hmiss Hblank. rewrite (fetchPodcastIndex_computes _ _ _ _ _ _ _ _ _ Hmiss).
  cbv zeta. unfold getAuthHeaders.
  destruct Hblank as [-> | ->]; rewrite ?orb_true_r; reflexivity.
Qed.

Lemma fetchPodcastIndex_needs_credentials_witness :
  index_requests
    (fetchPodcastIndex (fun d : string => negb (String.eqb d "")) (fun s => s)
       (JStr "key") (JStr "   ") (fun _ _ => Returns 5 "{feeds}") ∅ 1000
       "/podcasts/trending" "max=10")
  = [].
Proof.
  rewrite (fetchPodcastIndex_needs_credentials
             (fun d : string => negb (String.eqb d "")) (fun s => s)
             (JStr "key") (JStr "   ") (fun _ _ => Returns 5 "{feeds}") ∅ 1000
             "/podcasts/trending" "max=10").
  - reflexivity.
  - reflexivity.
  - right. reflexivity.
Defined.

(** X16. [fetchPodcastIndex] does not memoize failures: when the request
    fails, the error propagates with its message, nothing is stored, and
    a later call for the same URL, at whatever time, is not served from
    the cache. *)
Theorem fetchPodcastIndex_failure_not_stored
    {Data : Type} (is_truthy : Data -> bool) sha1_hex API_KEY API_SECRET
    (axios_get : string -> AuthHeaders -> HandlerOutcome Data)
    (c : gmap string (Stored Data)) now endpoint params headers after message :
  (served is_truthy c now (podcastindex_url endpoint params)).1 = None ->
  getAuthHeaders sha1_hex API_KEY API_SECRET now = inr headers ->
  axios_get (podcastindex_url endpoint params) headers = Throws after message ->
  let o := fetchPodcastIndex is_truthy sha1_hex API_KEY API_SECRET axios_get
             c now endpoint params in
  index_result o = Some (inl message)
  /\ index_requests o = [podcastindex_url endpoint params]
  /\ forall now',
       (served is_truthy (index_cache o) now' (podcastindex_url endpoint params)).1
       = None.
Proof.
  intros Hmiss Hauth Haxios o. subst o.
  rewrite (fetchPodcastIndex_computes _ _ _ _ _ _ _ _ _ Hmiss).
  cbv zeta. rewrite Hauth, Haxios. cbn [index_result index_requests index_cache].
  repeat split. intros now'. now apply served_nothing_later.
Qed.

Lemma fetchPodcastIndex_failure_not_stored_witness :
  index_result
    (fetchPodcastIndex (fun d : string => negb (String.eqb d "")) (fun s => s)
       (JStr " key ") (JStr "secret") (fun _ _ => Throws 8000 "timeout of 8000ms exceeded")
       ∅ 1000 "/search/byterm" "q=news&max=10")
  = Some (inl "timeout of 8000ms exceeded").
Proof.
  refine (proj1 (fetchPodcastIndex_failure_not_stored
                   (fun d : string => negb (String.eqb d "")) (fun s => s)
                   (JStr " key ") (JStr "secret")
                   (fun _ _ => Throws 8000 "timeout of 8000ms exceeded")
                   ∅ 1000 "/search/byterm" "q=news&max=10"
                   {| user_agent := "Pods/1.0 (+https://podstudio.ca)";
                      x_auth_date := "1";
                      x_auth_key := "key";
                      authorization := "keysecret1" |}
                   8000 "timeout of 8000ms exceeded" _ _ _)).
  - reflexivity.
  - reflexivity.
  - reflexivity.
Defined.

(** X17. [fetchPodcastIndex] memoizes results under the request URL: a
    truthy result is returned and, for 120 seconds from the time it
    arrived, every call for the same endpoint and parameters returns it
    without a request, whatever the credentials are by then. *)
Theorem fetchPodcastIndex_replays_result
    {Data : Type} (is_truthy : Data -> bool) sha1_hex API_KEY API_SECRET
    (axios_get : string -> AuthHeaders -> HandlerOutcome Data)
    (c : gmap string (Stored Data)) now now' endpoint params headers after data :
  (served is_truthy c now (podcastindex_url endpoint params)).1 = None ->
  getAuthHeaders sha1_hex API_KEY API_SECRET now = inr headers ->
  axios_get (podcastindex_url endpoint params) headers = Returns after data ->
  is_truthy data = true ->
  now' <= now + Z.of_N after + stdTTL * 1000 ->
  let o := fetchPodcastIndex is_truthy sha1_hex API_KEY API_SECRET axios_get
             c now endpoint params in
  index_result o = Some (inr data)
  /\ index_requests o = [podcastindex_url endpoint params]
  /\ forall API_KEY' API_SECRET' axios_get',
       fetchPodcastIndex is_truthy sha1_hex API_KEY' API_SECRET' axios_get'
         (index_cache o) now' endpoint params
       = {| index_result := Some (inr data);
            index_cache := index_cache o;
            index_requests := [] |}.
Proof.
  intros Hmiss Hauth Haxios Hdata Hlive o. subst o.
  rewrite (fetchPodcastIndex_computes _ _ _ _ _ _ _ _ _ Hmiss).
  cbv zeta. rewrite Hauth, Haxios. cbn [index_result index_requests index_cache].
  repeat split. intros k' s' ax'. unfold fetchPodcastIndex.
  rewrite (served_set_live _ _ _ _ _ _ _ Hdata Hlive). reflexivity.
Qed.

Lemma fetchPodcastIndex_replays_result_witness :
  index_result
    (fetchPodcastIndex (fun d : string => negb (String.eqb d "")) (fun s => s)
       (JStr " key ") (JStr "secret") (fun _ _ => Returns 300 "{feeds}")
       ∅ 1000 "/podcasts/trending" "")
  = Some (inr "{feeds}").
Proof.
  refine (proj1 (fetchPodcastIndex_replays_result
                   (fun d : string => negb (String.eqb d "")) (fun s => s)
                   (JStr " key ") (JStr "secret") (fun _ _ => Returns 300 "{feeds}")
                   ∅ 1000 121300 "/podcasts/trending" ""
                   {| user_agent := "Pods/1.0 (+https://podstudio.ca)";
                      x_auth_date := "1";
                      x_auth_key := "key";
                      authorization := "keysecret1" |}
                   300 "{feeds}" _ _ _ _ _)).
  - reflexivity.
  - reflexivity.
  - reflexivity.
  - reflexivity.
  - vm_compute. discriminate.
Defined.

(** ** Keys of the shared cache of [Server_backup.cjs] *)

Lemma append_cons c r s : String c r +:+ s = String c (r +:+ s).
Proof. reflexivity. Qed.

Lemma append_nil s : "" +:+ s = s.
Proof. reflexivity. Qed.

(** X18. The one cache of [Server_backup.cjs] holds episode responses,
    category responses and directory results; their keys never
    coincide, whatever the request. *)
Theorem cache_keys_disjoint req name page limit endpoint params :
  keyBuilder req <> category_key name page limit
  /\ keyBuilder req <> podcastindex_url endpoint params
  /\ category_key name page limit <> podcastindex_url endpoint params.
Proof.
  unfold keyBuilder, category_key, podcastindex_url, BASE_URL.
  rewrite !append_cons. repeat split; discriminate.
Qed.

Lemma append_assoc (a b c : string) : (a +:+ b) +:+ c = a +:+ (b +:+ c).
Proof.
  induction a as [|x r IH]; [reflexivity|].
  change (String x ((r +:+ b) +:+ c) = String x (r +:+ (b +:+ c))).
  now rewrite IH.
Qed.

(** X19. The category key does not determine the request: a colon may
    move between the name and the page, and a missing page or limit
    gives the same key as the text "undefined". *)
Theorem category_key_collisions name a b limit :
  category_key (name +:+ ":" +:+ a) (JStr b) limit
  = category_key name (JStr (a +:+ ":" +:+ b)) limit
  /\ category_key name JUndefined limit = category_key name (JStr "undefined") limit
  /\ category_key name (JStr a) JUndefined
     = category_key name (JStr a) (JStr "undefined").
Proof.
  unfold category_key. cbn [template]. repeat split.
  rewrite !append_assoc. reflexivity.
Qed.

Lemma colon_split a a' x x' :
  colon_free a = true -> colon_free a' = true ->
  a +:+ ":" +:+ x = a' +:+ ":" +:+ x' -> a = a' /\ x = x'.
Proof.
  revert a'. induction a as [|c r IH]; intros [|c' r'];
    rewrite ?append_cons, ?append_nil; simpl.
  - intros _ _ [= ->]. auto.
  - intros _ H [= <- _]. discriminate H.
  - intros H _ [= -> _]. discriminate H.
  - intros H H' [= <- Hr].
    apply andb_prop in H as [_ H]. apply andb_prop in H' as [_ H'].
    destruct (IH r' H H' Hr) as [-> ->]. auto.
Qed.

(** X20. Among requests whose name and page are free of colons, the
    category key determines the name and the texts of page and limit. *)
Theorem category_key_injective name1 name2 page1 page2 limit1 limit2 :
  colon_free name1 = true -> colon_free name2 = true ->
  colon_free (template page1) = true -> colon_free (template page2) = true ->
  category_key name1 page1 limit1 = category_key name2 page2 limit2 ->
  name1 = name2
  /\ template page1 = template page2
  /\ template limit1 = template limit2.
Proof.
  unfold category_key. intros Hn1 Hn2 Hp1 Hp2 H.
  rewrite !append_cons, !append_nil in H. injection H as H.
  destruct (colon_split _ _ _ _ Hn1 Hn2 H) as [-> H'].
  destruct (colon_split _ _ _ _ Hp1 Hp2 H') as [-> ->]. auto.
Qed.

Lemma category_key_injective_witness :
  "sports" = "sports"
  /\ template (JStr "2") = template (JStr "2")
  /\ template JUndefined = template JUndefined.
Proof.
  apply (category_key_injective "sports" "sports" (JStr "2") (JStr "2")
           JUndefined JUndefined); reflexivity.
Defined.

(** ** The category statement *)

(** X21. Whatever the columns of the table, the statement of the
    category route has as many placeholders as values are bound to it:
    one pattern per category column tested (one for the title when there
    is no category column), then the limit and the offset. *)
Theorem category_placeholders_match_params
    {Num : Type} caps (matched : SqlParam Num) limit offset :
  placeholders (category_sql caps)
  = List.length (category_params caps matched limit offset)
  /\ List.last (category_params caps matched limit offset) matched = PNum offset
  /\ List.hd (PNum limit) (category_params caps matched limit offset) = matched.
Proof.
  destruct caps as [co la po c1 c2 de ur li im au].
  destruct co, la, po, c1, c2, ur, li; repeat split; vm_compute; reflexivity.
Qed.

Lemma assoc_Some name table v :
  assoc name table = Some v -> In (name, v) table.
Proof.
  induction table as [|[k w] r IH]; [discriminate|].
  cbn [assoc]. destruct (String.eqb_spec k name) as [->|_].
  - intros [= ->]. now left.
  - intros H. right. now apply IH.
Qed.

Lemma assoc_None name table :
  assoc name table = None -> ~ In name (List.map fst table).
Proof.
  induction table as [|[k w] r IH]; [intros _ []|].
  cbn [assoc]. destruct (String.eqb_spec k name) as [->|Hne]; [discriminate|].
  intros H [Hk|Hin]; [exact (Hne Hk)|exact (IH H Hin)].
Qed.

Lemma existsb_eqb name names :
  existsb (String.eqb name) names = true <-> In name names.
Proof.
  rewrite List.existsb_exists. split.
  - intros (x & Hin & Heq). apply String.eqb_eq in Heq. now subst.
  - intros Hin. exists name. split; [exact Hin|apply String.eqb_refl].
Qed.

(** X22. For a lowered name, the route answers "Unknown category"
    unless the name is one of the five categories of the table, which
    select their pattern, or is ["constructor"] or ["__proto__"], which
    the lookup [map[name]] finds on the prototype of the table: for
    these two a statement is issued with a non-text value in place of
    the pattern. *)
Theorem category_lookup_accepts name :
  no_upper name = true ->
  match category_lookup name with
  | Own pattern => In (name, pattern) category_table
  | Inherited => name = "constructor" \/ name = "__proto__"
  | Absent => ~ In name accepted_categories
  end
  /\ forall (Num : Type) (caps : Caps) (limit offset : Num),
       category_statement caps name limit offset = None
       <-> ~ In name accepted_categories.
Proof.
  intros Hlow.
  assert (Hmain :
    match category_lookup name with
    | Own pattern => In (name, pattern) category_table /\ In name accepted_categories
    | Inherited => (name = "constructor" \/ name = "__proto__")
                   /\ In name accepted_categories
    | Absent => ~ In name accepted_categories
    end).
  { unfold category_lookup.
    destruct (assoc name category_table) as [pattern|] eqn:Ha.
    - apply assoc_Some in Ha. split; [exact Ha|].
      cbn in Ha. unfold accepted_categories. cbn.
      intuition (try match goal with H : (_, _) = (_, _) |- _ => injection H as ? ? end;
                 auto 10).
    - apply assoc_None in Ha. cbn in Ha.
      destruct (existsb (String.eqb name) object_prototype_names) eqn:He.
      + apply existsb_eqb in He. unfold accepted_categories. cbn in He |- *.
        intuition (subst name; try discriminate Hlow; auto 10).
      + assert (Hno : ~ In name object_prototype_names).
        { intros Hin. apply existsb_eqb in Hin. congruence. }
        unfold accepted_categories. cbn in Hno |- *. intuition auto. }
  split.
  - destruct (category_lookup name); tauto.
  - intros Num caps limit offset. unfold category_statement.
    destruct (category_lookup name); split; try discriminate; tauto.
Qed.

Lemma category_lookup_accepts_witness :
  match category_lookup "truecrime" with
  | Own pattern => In ("truecrime", pattern) category_table
  | Inherited => "truecrime" = "constructor" \/ "truecrime" = "__proto__"
  | Absent => ~ In "truecrime" accepted_categories
  end
  /\ forall (Num : Type) (caps : Caps) (limit offset : Num),
       category_statement caps "truecrime" limit offset = None
       <-> ~ In "truecrime" accepted_categories.
Proof.
  apply (category_lookup_accepts "truecrime"). reflexivity.
Defined.

(** ** Podcast summaries *)

Lemma or2_unknown a b :
  or_str (JS.or a b) "Unknown" = text_of (first_truthy [a; b; JStr "Unknown"])
  /\ or_str (JS.or a b) "Unknown" <> "".
Proof.
  by_operand a; try (split; [reflexivity|discriminate]);
    by_operand b; split; try reflexivity; discriminate.
Qed.

(** X23. The summaries of the search, home and trending routes keep
    the upstream entries one for one, in order, with their ids, titles
    and links; the author of a summary is never empty (the entry's
    author, else its itunes author, else "Unknown"); without a [feeds]
    array the list is empty. *)
Theorem mapFeeds_summaries feeds :
  List.map pod_id (mapFeeds (Some feeds)) = List.map p_id feeds
  /\ List.map pod_title (mapFeeds (Some feeds)) = List.map p_title feeds
  /\ List.map pod_link (mapFeeds (Some feeds)) = List.map p_link feeds
  /\ List.map pod_author (mapFeeds (Some feeds))
     = List.map (fun p => text_of (first_truthy [p_author p; p_itunesAuthor p;
                                                  JStr "Unknown"])) feeds
  /\ Forall (fun pod => pod_author pod <> "") (mapFeeds (Some feeds))
  /\ mapFeeds None = [].
Proof.
  cbn [mapFeeds]. rewrite !List.map_map. repeat split.
  - apply List.map_ext. intros p. apply or2_unknown.
  - apply List.Forall_forall. intros pod Hin.
    apply List.in_map_iff in Hin as (p & <- & _). apply or2_unknown.
Qed.
